(** * lokinet path layer: path registry, layered cipher passes, bencode list readers

    A shallow embedding of [llarp/path.cpp] and of the list readers of
    [llarp/util/bencode.hpp], with the properties of the path layer proved
    about it.

    Conventions of the embedding:
    - pointers ([Path*], [TransitHop*]) are addresses into a typed store
      (a [gmap]); [nullptr] is [None];
    - behaviour that C++ leaves undefined (dereferencing a released pointer,
      indexing a vector out of range) is the [None] of the outer [option];
    - the multimaps of the registry are association lists in iteration
      order: [equal_range] keeps the entries of one key in insertion order;
    - [uint64_t] values are [Z] with the wrap-around written out ([u64]);
    - side effects on the router (messages handed to the link layer) and on
      the random generator are threaded explicitly. *)

From Stdlib Require Import ZArith List Bool Lia.
From stdpp Require Import base option list gmap.

(** ** Scalar types *)

Definition byte_t := Z.
Definition PathID_t := Z.
Definition RouterID := Z.
Definition TunnelNonce := Z.
Definition SharedSecret := Z.
Definition EncryptedFrame := list byte_t.

(** [llarp_time_t] is an unsigned 64-bit millisecond count (the typedef
    is declared elsewhere in the repository); arithmetic on it wraps. *)
Definition llarp_time_t := Z.
Definition llarp_time_bits : Z := 64.
Definition u64 (z : Z) : Z := (z mod 2 ^ llarp_time_bits)%Z.

(** Addresses of heap objects. *)
Definition ptr := positive.

(** ** Buffers *)

(** [llarp_buffer_t]: [base] is the backing memory, [cur] the read/write
    cursor as an offset from [base], [sz] the logical size. *)
Record llarp_buffer_t := Buffer {
  base : list byte_t;
  sz : nat;
  cur : nat
}.

(** [llarp::StackBuffer(tmp)]: a buffer over a whole array, cursor at the
    start. *)
Definition StackBuffer (tmp : list byte_t) : llarp_buffer_t :=
  Buffer tmp (length tmp) 0.

(** Modelled from the spec: [llarp_buffer_t::size_left] (declared in
    util/buffer.hpp) is the number of bytes between the cursor and the
    logical end, zero when the cursor is past it. *)
Definition size_left (buf : llarp_buffer_t) : nat := sz buf - cur buf.

(** [*buffer->cur]: the byte under the cursor; [None] when the cursor is
    outside the backing memory. *)
Definition peek (buf : llarp_buffer_t) : option byte_t := base buf !! cur buf.

(** [buffer->cur++] *)
Definition advance (buf : llarp_buffer_t) : llarp_buffer_t :=
  Buffer (base buf) (sz buf) (S (cur buf)).

(** ** Random generator *)

(** Modelled from the spec: [Randomize()] (declared elsewhere in the
    repository) gives an identifier or a nonce a fresh random value. The generator is an entropy
    stream together with the number of values already drawn. *)
Record randombytes := RandomBytes {
  entropy : nat → Z;
  drawn : nat
}.

Definition Randomize (g : randombytes) : Z * randombytes :=
  (entropy g (drawn g), RandomBytes (entropy g) (S (drawn g))).

(** ** Crypto facade *)

(** Modelled from the spec: the stream cipher of the crypto facade is a
    symmetric transform, the same operation for encryption and decryption
    under a matching key and nonce: the [sz] bytes of the buffer are XORed
    with a keystream determined by the key and the nonce. The keystream
    generator itself is left arbitrary. *)
Record llarp_crypto := Crypto {
  keystream : SharedSecret → TunnelNonce → nat → byte_t
}.

(** XOR of the bytes with the keystream, position by position. *)
Definition xor_stream (ks : nat → byte_t) (data : list byte_t) : list byte_t :=
  imap (λ i b, Z.lxor b (ks i)) data.

(** Modelled from the spec: [crypto.xchacha20(buf, key, nonce)], the stream
    cipher transform applied in place to the [sz] bytes at [base]. *)
Definition xchacha20 (c : llarp_crypto) (buf : llarp_buffer_t)
    (k : SharedSecret) (n : TunnelNonce) : llarp_buffer_t :=
  Buffer (xor_stream (keystream c k n) (take (sz buf) (base buf))
            ++ drop (sz buf) (base buf))
         (sz buf) (cur buf).

(** ** Link messages and the router *)

Inductive ILinkMessage :=
  | LR_CommitMessage (frames : list EncryptedFrame)
  | RelayUpstreamMessage (X : list byte_t) (Y : TunnelNonce) (pathid : PathID_t).

(** The part of [llarp_router] the path layer uses: the crypto engine, the
    decision of the link layer to take a message, and the log of the calls
    to [SendToOrQueue], oldest first. *)
Record llarp_router := Router {
  crypto : llarp_crypto;
  link_accepts : list (RouterID * ILinkMessage) → RouterID → ILinkMessage → bool;
  outbound : list (RouterID * ILinkMessage)
}.

(** Modelled from the spec: the transport send primitive
    [send(routerIdentity, message) -> bool] ([llarp_router::SendToOrQueue],
    declared in router.hpp). Every call is recorded in [outbound]. *)
Definition SendToOrQueue (r : llarp_router) (remote : RouterID)
    (msg : ILinkMessage) : bool * llarp_router :=
  (link_accepts r (outbound r) remote msg,
   Router (crypto r) (link_accepts r) (outbound r ++ [(remote, msg)])).

(** Modelled from the spec: the ciphertext of a relay message. [Encrypted]
    (declared elsewhere in the repository) assigned from a buffer copies its [sz] bytes
    from [base]. *)
Definition Encrypted (buf : llarp_buffer_t) : list byte_t :=
  take (sz buf) (base buf).

(** ** Paths *)

Record llarp_rc := RC { pubkey : RouterID }.

Record llarp_path_hop := PathHop { hop_router : llarp_rc }.

(** [llarp_path_hops]: the array of chosen hops; [numHops] is its length. *)
Definition llarp_path_hops := list llarp_path_hop.
Definition numHops (h : llarp_path_hops) : nat := length h.

Record PathHopConfig := HopConfig {
  txID : PathID_t;
  rxID : PathID_t;
  router : llarp_rc;
  shared : SharedSecret;
  lifetime : llarp_time_t
}.

Definition set_router (rc : llarp_rc) (c : PathHopConfig) : PathHopConfig :=
  HopConfig (txID c) (rxID c) rc (shared c) (lifetime c).
Definition set_txID (id : PathID_t) (c : PathHopConfig) : PathHopConfig :=
  HopConfig id (rxID c) (router c) (shared c) (lifetime c).
Definition set_rxID (id : PathID_t) (c : PathHopConfig) : PathHopConfig :=
  HopConfig (txID c) id (router c) (shared c) (lifetime c).

Record Path := MkPath {
  hops : list PathHopConfig;
  buildStarted : llarp_time_t;
  m_InboundMessageParser : llarp_buffer_t → bool
}.

(** First loop of [Path::Path]: for ascending [idx], copy the router
    contact and randomize [txID], then [rxID]. [blank] is the
    value-initialised element of [hops(h->numHops)]. *)
Fixpoint randomize_hops (h : llarp_path_hops) (blank : PathHopConfig)
    (g : randombytes) : list PathHopConfig * randombytes :=
  match h with
  | [] => ([], g)
  | x :: rest =>
      let '(tx, g1) := Randomize g in
      let '(rx, g2) := Randomize g1 in
      let '(tl, g3) := randomize_hops rest blank g2 in
      (set_rxID rx (set_txID tx (set_router (hop_router x) blank)) :: tl, g3)
  end.

(** Second loop of [Path::Path]: [for(idx = start; idx > 0; --idx)
    hops[idx].txID = hops[idx - 1].rxID]. Indexing outside the vector is
    undefined. *)
Fixpoint relink (idx : nat) (hs : list PathHopConfig)
    : option (list PathHopConfig) :=
  match idx with
  | O => Some hs
  | S prev =>
      c ← hs !! idx;
      p ← hs !! prev;
      relink prev (<[idx := set_txID (rxID p) c]> hs)
  end.

(** [Path::Path(llarp_path_hops* h)]. The constructor assigns neither
    [buildStarted] nor the parser; they are taken as given. With
    [numHops = 0] the start index [numHops - 1] wraps to [SIZE_MAX] and the
    first iteration indexes outside the (empty) vector. *)
Definition Path_ctor (h : llarp_path_hops) (blank : PathHopConfig)
    (started : llarp_time_t) (parser : llarp_buffer_t → bool)
    (g : randombytes) : option (Path * randombytes) :=
  let '(hs, g') := randomize_hops h blank g in
  match numHops h with
  | O => None
  | S last => hs' ← relink last hs; Some (MkPath hs' started parser, g')
  end.

(** [Path::TXID], [Path::RXID], [Path::Upstream]: fields of [hops[0]]. *)
Definition TXID (p : Path) : option PathID_t := txID <$> hops p !! 0%nat.
Definition RXID (p : Path) : option PathID_t := rxID <$> hops p !! 0%nat.
Definition Upstream (p : Path) : option RouterID :=
  (λ c, pubkey (router c)) <$> hops p !! 0%nat.

(** [Path::Expired]: [now - buildStarted > hops[0].lifetime] on unsigned
    64-bit operands. *)
Definition Expired (p : Path) (now : llarp_time_t) : option bool :=
  c ← hops p !! 0%nat;
  Some (lifetime c <? u64 (now - buildStarted p))%Z.

(** [Path::HandleUpstream]: one cipher pass per hop, in hop order, then a
    relay-upstream message to the first hop. *)
Definition HandleUpstream (p : Path) (buf : llarp_buffer_t) (Y : TunnelNonce)
    (r : llarp_router) : option (bool * llarp_router) :=
  let buf' := foldl (λ b hop, xchacha20 (crypto r) b (shared hop) Y) buf (hops p) in
  pathid ← TXID p;
  up ← Upstream p;
  Some (SendToOrQueue r up (RelayUpstreamMessage (Encrypted buf') Y pathid)).

(** [Path::HandleRoutingMessage] *)
Definition HandleRoutingMessage (p : Path) (buf : llarp_buffer_t)
    (r : llarp_router) : bool :=
  if negb (m_InboundMessageParser p buf) then false else true.

(** [Path::HandleDownstream]: the same pass, then the routing-message
    parser of the path. *)
Definition HandleDownstream (p : Path) (buf : llarp_buffer_t) (Y : TunnelNonce)
    (r : llarp_router) : bool :=
  let buf' := foldl (λ b hop, xchacha20 (crypto r) b (shared hop) Y) buf (hops p) in
  HandleRoutingMessage p buf' r.

(** Modelled from the spec: the serialization facade
    [encode(message, buffer) -> bool]. A routing message is seen through
    its virtual [BEncode]: given a buffer it reports success and leaves the
    buffer as written. *)
Record IMessage := Message {
  BEncode : llarp_buffer_t → bool * llarp_buffer_t
}.

(** [Path::SendRoutingMessage]. [tmp] is the scratch array
    [byte_t tmp[MAX_LINK_MSG_SIZE / 2]] with whatever it holds on entry. *)
Definition SendRoutingMessage (p : Path) (msg : IMessage) (tmp : list byte_t)
    (r : llarp_router) (g : randombytes)
    : option (bool * llarp_router * randombytes) :=
  let buf := StackBuffer tmp in
  let '(ok, buf) := BEncode msg buf in
  if negb ok then Some (false, r, g)
  else
    (* rewind *)
    let buf := Buffer (base buf) (cur buf) 0 in
    (* make nonce *)
    let '(N, g') := Randomize g in
    res ← HandleUpstream p buf N r;
    Some (res.1, res.2, g').

(** ** Transit hops *)

(** Modelled from the spec: HopInfo is {upstream neighbour, downstream
    neighbour, TX id, RX id, lifetime}; the struct is declared in
    llarp/path.hpp. [path.cpp] reads [txID], [rxID], [upstream] and
    [downstream]. *)
Record TransitHopInfo := HopInfo {
  info_txID : PathID_t;
  info_rxID : PathID_t;
  info_upstream : RouterID;
  info_downstream : RouterID;
  info_lifetime : llarp_time_t
}.

(** Modelled from the spec: [TransitHopInfo::operator==] compares the two
    records exactly, field by field. *)
Definition TransitHopInfo_eqb (a b : TransitHopInfo) : bool :=
  (info_txID a =? info_txID b)%Z && (info_rxID a =? info_rxID b)%Z
  && (info_upstream a =? info_upstream b)%Z
  && (info_downstream a =? info_downstream b)%Z
  && (info_lifetime a =? info_lifetime b)%Z.

(** Modelled from the spec: TransitHop is {HopInfo, registered timestamp}. *)
Record TransitHop := MkTransitHop {
  info : TransitHopInfo;
  started : llarp_time_t
}.

(** Modelled from the spec: [TransitHop::Expired] (defined elsewhere in the repository)
    is [now - registeredAt > info.lifetime], on unsigned 64-bit operands
    like [Path::Expired]. *)
Definition TransitHop_Expired (hop : TransitHop) (now : llarp_time_t) : bool :=
  (info_lifetime (info hop) <? u64 (now - started hop))%Z.

(** ** Synchronised multimaps *)

(** A multimap keyed by [PathID_t], as the list of its entries in iteration
    order. The mutex that guards it has no sequential content. *)
Abbreviation multimap V := (list (PathID_t * V)) (only parsing).

(** [map.equal_range(k)]: the values stored under [k], in order. *)
Definition equal_range {V} (m : multimap V) (k : PathID_t) : list V :=
  (filter (λ e, e.1 = k) m).*2.

(** [map.emplace(k, v)] *)
Definition emplace {V} (m : multimap V) (k : PathID_t) (v : V) : multimap V :=
  m ++ [(k, v)].

(** [map.erase(k)]: removes every entry stored under the key [k]. *)
Definition erase {V} (m : multimap V) (k : PathID_t) : multimap V :=
  filter (λ e, e.1 ≠ k) m.

(** The loop of [MapGet]: the first value of the range accepted by [check];
    [check] may dereference its argument. *)
Fixpoint first_accepted {V} (check : V → option bool) (range : list V)
    : option (option V) :=
  match range with
  | [] => Some None
  | v :: rest =>
      b ← check v;
      if (b : bool) then Some (Some v) else first_accepted check rest
  end.

Definition MapGet {V} (m : multimap V) (k : PathID_t)
    (check : V → option bool) : option (option V) :=
  first_accepted check (equal_range m k).

(** The loop of [MapHas]: whether [check] accepts a value of the range. *)
Fixpoint any_accepted {V} (check : V → option bool) (range : list V)
    : option bool :=
  match range with
  | [] => Some false
  | v :: rest =>
      b ← check v;
      if (b : bool) then Some true else any_accepted check rest
  end.

Definition MapHas {V} (m : multimap V) (k : PathID_t)
    (check : V → option bool) : option bool :=
  any_accepted check (equal_range m k).

Definition MapPut {V} (m : multimap V) (k : PathID_t) (v : V) : multimap V :=
  emplace m k v.

(** [MapIter]: visit every entry, threading the visitor's state. *)
Definition MapIter {V S} (m : multimap V) (v : S → PathID_t * V → S) (s : S) : S :=
  foldl v s m.

(** [MapDel]: erase, one by one, the entries of the range of [k] that
    [check] accepts; the other entries of the key stay. *)
Fixpoint MapDel {V} (m : multimap V) (k : PathID_t) (check : V → option bool)
    : option (multimap V) :=
  match m with
  | [] => Some []
  | (k', v) :: rest =>
      if decide (k' = k) then
        b ← check v;
        rest' ← MapDel rest k check;
        Some (if (b : bool) then rest' else (k', v) :: rest')
      else
        rest' ← MapDel rest k check;
        Some ((k', v) :: rest')
  end.

(** ** The path context *)

Record PathContext := Context {
  m_Router : llarp_router;
  m_AllowTransit : bool;
  m_OurPaths : multimap ptr;
  m_TransitPaths : multimap ptr
}.

(** The objects the registry points to. *)
Record heap := Heap {
  paths : gmap ptr Path;
  transit_hops : gmap ptr TransitHop
}.

Definition with_router (r : llarp_router) (c : PathContext) : PathContext :=
  Context r (m_AllowTransit c) (m_OurPaths c) (m_TransitPaths c).
Definition with_OurPaths (m : multimap ptr) (c : PathContext) : PathContext :=
  Context (m_Router c) (m_AllowTransit c) m (m_TransitPaths c).
Definition with_TransitPaths (m : multimap ptr) (c : PathContext) : PathContext :=
  Context (m_Router c) (m_AllowTransit c) (m_OurPaths c) m.

Definition new_PathContext (r : llarp_router) : PathContext :=
  Context r false [] [].

Definition AllowTransit (c : PathContext) : PathContext :=
  Context (m_Router c) true (m_OurPaths c) (m_TransitPaths c).

Definition AllowingTransit (c : PathContext) : bool := m_AllowTransit c.

(** The loop of [ForwardLRCM]: [push_back(frames.front()); pop_front()]
    until the queue is empty. Returns the queue and the frames of the
    message. *)
Fixpoint drain_frames (frames : list EncryptedFrame) (msg_frames : list EncryptedFrame)
    : list EncryptedFrame * list EncryptedFrame :=
  match frames with
  | [] => ([], msg_frames)
  | front :: rest => drain_frames rest (msg_frames ++ [front])
  end.

(** [PathContext::ForwardLRCM]: result of the send, the queue on return,
    the context with the router after the send. *)
Definition ForwardLRCM (c : PathContext) (nextHop : RouterID)
    (frames : list EncryptedFrame)
    : bool * list EncryptedFrame * PathContext :=
  let '(frames', msg_frames) := drain_frames frames [] in
  let '(ok, r') := SendToOrQueue (m_Router c) nextHop (LR_CommitMessage msg_frames) in
  (ok, frames', with_router r' c).

(** [PathContext::AddOwnPath] *)
Definition AddOwnPath (h : heap) (c : PathContext) (path : ptr)
    : option PathContext :=
  p ← paths h !! path;
  tx ← TXID p;
  rx ← RXID p;
  Some (with_OurPaths (MapPut (MapPut (m_OurPaths c) tx path) rx path) c).

(** [PathContext::HasTransitHop] *)
Definition HasTransitHop (h : heap) (c : PathContext) (i : TransitHopInfo)
    : option bool :=
  MapHas (m_TransitPaths c) (info_txID i)
    (λ hop, t ← transit_hops h !! hop; Some (TransitHopInfo_eqb i (info t))).

(** The handler a lookup returns: a pointer to an own path or to a transit
    hop. *)
Inductive IHopHandler :=
  | OwnPath (p : ptr)
  | Transit (p : ptr).

(** [PathContext::GetByUpstream] *)
Definition GetByUpstream (h : heap) (c : PathContext) (remote : RouterID)
    (id : PathID_t) : option (option IHopHandler) :=
  own ← MapGet (m_OurPaths c) id
           (λ p, path ← paths h !! p; up ← Upstream path;
                 Some (bool_decide (up = remote)));
  match own with
  | Some p => Some (Some (OwnPath p))
  | None =>
      t ← MapGet (m_TransitPaths c) id
             (λ p, hop ← transit_hops h !! p;
                   Some (bool_decide (info_upstream (info hop) = remote)));
      Some (option_map Transit t)
  end.

(** [PathContext::GetByDownstream] *)
Definition GetByDownstream (h : heap) (c : PathContext) (remote : RouterID)
    (id : PathID_t) : option (option IHopHandler) :=
  t ← MapGet (m_TransitPaths c) id
         (λ p, hop ← transit_hops h !! p;
               Some (bool_decide (info_downstream (info hop) = remote)));
  Some (option_map Transit t).

(** [PathContext::PutTransitHop] *)
Definition PutTransitHop (h : heap) (c : PathContext) (hop : ptr)
    : option PathContext :=
  t ← transit_hops h !! hop;
  Some (with_TransitPaths
          (MapPut (MapPut (m_TransitPaths c) (info_txID (info t)) hop)
                  (info_rxID (info t)) hop) c).

(** [std::set<TransitHop*>::insert]: the set is kept as the strictly
    ascending list of its elements, the order in which it is iterated. *)
Fixpoint set_insert (p : ptr) (s : list ptr) : list ptr :=
  match s with
  | [] => [p]
  | q :: rest =>
      if (p <? q)%positive then p :: q :: rest
      else if (p =? q)%positive then q :: rest
      else q :: set_insert p rest
  end.

(** First loop of [ExpirePaths]: scan the whole map and collect the
    pointers of the expired hops. *)
Fixpoint collect_expired (now : llarp_time_t) (objs : gmap ptr TransitHop)
    (m : multimap ptr) (removePaths : list ptr) : option (list ptr) :=
  match m with
  | [] => Some removePaths
  | (_, p) :: rest =>
      t ← objs !! p;
      collect_expired now objs rest
        (if TransitHop_Expired t now then set_insert p removePaths
         else removePaths)
  end.

(** Second loop of [ExpirePaths]: for every collected pointer, erase its
    TX key and its RX key from the map, then release the object. *)
Fixpoint erase_collected (removePaths : list ptr) (objs : gmap ptr TransitHop)
    (m : multimap ptr) : option (gmap ptr TransitHop * multimap ptr) :=
  match removePaths with
  | [] => Some (objs, m)
  | p :: rest =>
      t ← objs !! p;
      erase_collected rest (delete p objs)
        (erase (erase m (info_txID (info t))) (info_rxID (info t)))
  end.

(** [PathContext::ExpirePaths]; [now] is the reading of
    [llarp_time_now_ms()]. *)
Definition ExpirePaths (now : llarp_time_t) (h : heap) (c : PathContext)
    : option (heap * PathContext) :=
  removePaths ← collect_expired now (transit_hops h) (m_TransitPaths c) [];
  '(objs, m) ← erase_collected removePaths (transit_hops h) (m_TransitPaths c);
  Some (Heap (paths h) objs, with_TransitPaths m c).

(** An entry of the transit map: the hop at [p] is stored under the key
    [k]. Decided with the registry's own [MapHas]. *)
Definition reachable_by (c : PathContext) (k : PathID_t) (p : ptr) : bool :=
  match MapHas (m_TransitPaths c) k (λ q, Some (bool_decide (q = p))) with
  | Some b => b
  | None => false
  end.

(** ** Bencode list readers (llarp/util/bencode.hpp) *)

(** How a call of a reader ends: it returns a boolean, or it reads a byte
    outside the backing memory of the buffer (undefined in C++), or the
    model runs out of loop iterations. *)
Inductive outcome (St : Type) :=
  | Returned (b : bool) (s : St) (buf : llarp_buffer_t)
  | OutOfBounds (s : St) (buf : llarp_buffer_t)
  | OutOfFuel.
Arguments Returned {St} b s buf.
Arguments OutOfBounds {St} s buf.
Arguments OutOfFuel {St}.

Definition char_l : byte_t := 108%Z.
Definition char_e : byte_t := 101%Z.

(** A sink is the callable handed to [bencode_read_list], with the state it
    captures by reference made explicit. *)
Definition sink_t (St : Type) : Type :=
  St → llarp_buffer_t → bool → bool * St * llarp_buffer_t.

(** [bencode_read_list] after its loop: the list must end on ['e'], then
    the sink is told that the list is over. *)
Definition list_end {St} (sink : sink_t St) (s : St) (buffer : llarp_buffer_t)
    : outcome St :=
  match peek buffer with
  | None => OutOfBounds s buffer
  | Some c =>
      if decide (c ≠ char_e) then Returned false s buffer
      else
        let '(ok, s', buffer') := sink s (advance buffer) false in
        Returned ok s' buffer'
  end.

(** The loop [while(buffer->size_left() && *buffer->cur != 'e')] of
    [bencode_read_list]; [fuel] bounds the number of times the condition is
    evaluated. *)
Fixpoint list_loop {St} (sink : sink_t St) (fuel : nat) (s : St)
    (buffer : llarp_buffer_t) : outcome St :=
  match fuel with
  | O => OutOfFuel
  | S fuel' =>
      if decide (size_left buffer = 0%nat) then list_end sink s buffer
      else
        match peek buffer with
        | None => OutOfBounds s buffer
        | Some c =>
            if decide (c = char_e) then list_end sink s buffer
            else
              let '(ok, s', buffer') := sink s buffer true in
              if (ok : bool) then list_loop sink fuel' s' buffer'
              else Returned false s' buffer'
        end
  end.

(** [bencode_read_list(sink, buffer)] *)
Definition bencode_read_list {St} (sink : sink_t St) (fuel : nat) (s : St)
    (buffer : llarp_buffer_t) : outcome St :=
  if decide (size_left buffer < 2)%nat then Returned false s buffer
  else
    match peek buffer with
    | None => OutOfBounds s buffer
    | Some c =>
        if decide (c ≠ char_l) then Returned false s buffer
        else list_loop sink fuel s (advance buffer)
    end.

(** The element type of an array or list read from bencode: [BDecode]
    reads one element from the buffer into an existing object. *)
Class BDecodable (Item : Type) :=
  BDecode : Item → llarp_buffer_t → bool * Item * llarp_buffer_t.

(** What the lambda of [BEncodeReadArray] captures: the array, the index
    [idx], and (for the proofs) the indices at which [BDecode] was called,
    oldest first. *)
Record array_reader (Item : Type) := ArrayReader {
  array : list Item;
  idx : nat;
  decoded_at : list nat
}.
Arguments ArrayReader {Item} array idx decoded_at.
Arguments array {Item} a.
Arguments idx {Item} a.
Arguments decoded_at {Item} a.

(** The lambda of [BEncodeReadArray]. *)
Definition read_array_sink {Item} `{BDecodable Item} : sink_t (array_reader Item) :=
  λ s buffer has,
    if (has : bool) then
      if decide (length (array s) ≤ idx s)%nat then (false, s, buffer)
      else
        match array s !! idx s with
        | None => (false, s, buffer)
        | Some item =>
            let '(ok, item', buffer') := BDecode item buffer in
            (ok,
             ArrayReader (<[idx s := item']> (array s)) (S (idx s))
                         (decoded_at s ++ [idx s]),
             buffer')
        end
    else (true, s, buffer).

(** [BEncodeReadArray(array, buf)] *)
Definition BEncodeReadArray {Item} `{BDecodable Item} (arr : list Item)
    (buf : llarp_buffer_t) (fuel : nat) : outcome (array_reader Item) :=
  bencode_read_list read_array_sink fuel (ArrayReader arr 0 []) buf.

(** The lambda of [BEncodeReadList]: append a fresh element and decode into
    it. *)
Definition read_list_sink {Item} `{BDecodable Item} (fresh : Item)
    : sink_t (list Item) :=
  λ result buffer has,
    if (has : bool) then
      let '(ok, item', buffer') := BDecode fresh buffer in
      (ok, result ++ [item'], buffer')
    else (true, result, buffer).

(** [BEncodeReadList(result, buf)] *)
Definition BEncodeReadList {Item} `{BDecodable Item} (fresh : Item)
    (result : list Item) (buf : llarp_buffer_t) (fuel : nat)
    : outcome (list Item) :=
  bencode_read_list (read_list_sink fresh) fuel result buf.

(** ** Sample objects *)

Definition sample_crypto : llarp_crypto :=
  Crypto (λ k n i, (k + n + Z.of_nat i) mod 256)%Z.

Definition sample_router : llarp_router :=
  Router sample_crypto (λ _ _ _, true) [].

Definition sample_rng : randombytes := RandomBytes (λ i, Z.of_nat i + 100)%Z 0.

Definition hour_ms : Z := 3600000%Z.

Definition sample_blank : PathHopConfig := HopConfig 0%Z 0%Z (RC 0%Z) 0%Z hour_ms.

Definition sample_chosen : llarp_path_hops :=
  [PathHop (RC 11%Z); PathHop (RC 12%Z); PathHop (RC 13%Z)].

Definition sample_path : Path :=
  MkPath [HopConfig 1%Z 2%Z (RC 11%Z) 7%Z hour_ms;
          HopConfig 2%Z 3%Z (RC 12%Z) 8%Z hour_ms;
          HopConfig 3%Z 4%Z (RC 13%Z) 9%Z hour_ms]
         1000%Z (λ _, true).

(** ** Specification vocabulary *)

(** What [relink] leaves at index [j]: the indices [1..n] take the [rxID]
    of their predecessor as [txID]; the others are untouched. *)
Definition relinked (hs : list PathHopConfig) (n j : nat) : option PathHopConfig :=
  if decide (1 ≤ j ≤ n)%nat then
    c ← hs !! j; p ← hs !! (j - 1)%nat; Some (set_txID (rxID p) c)
  else hs !! j.

(** The path the constructor builds, hop by hop. *)
Definition built_hop (h : llarp_path_hops) (blank : PathHopConfig)
    (g : randombytes) (j : nat) : option PathHopConfig :=
  x ← h !! j;
  Some (HopConfig
          (match j with
           | O => entropy g (drawn g)
           | S j' => entropy g (drawn g + 2 * j' + 1)
           end)
          (entropy g (drawn g + 2 * j + 1))
          (hop_router x) (shared blank) (lifetime blank)).

(** [v] is the first element of [l] with the property [P]. *)
Definition first_such {V} (P : V → Prop) (l : list V) (v : V) : Prop :=
  ∃ l1 l2, l = l1 ++ v :: l2 ∧ P v ∧ Forall (λ x, ¬ P x) l1.

(** [check] decides [P] on the elements of [l] without faulting. *)
Definition decides {V} (check : V → option bool) (P : V → Prop) (l : list V) : Prop :=
  ∀ x, x ∈ l → ∃ b : bool, check x = Some b ∧ (b = true ↔ P x).

(** Every own-path entry points to a live path with at least one hop. *)
Definition own_live (h : heap) (c : PathContext) : Prop :=
  Forall (λ e, ∃ path, paths h !! e.2 = Some path ∧ hops path ≠ [])
         (m_OurPaths c).

(** Every transit entry points to a live transit hop. *)
Definition transit_live (h : heap) (c : PathContext) : Prop :=
  Forall (λ e, is_Some (transit_hops h !! e.2)) (m_TransitPaths c).

(** The own path at [p] has [hops[0].router == remote]. *)
Definition own_match (h : heap) (remote : RouterID) (p : ptr) : Prop :=
  ∃ path, paths h !! p = Some path ∧ Upstream path = Some remote.

(** The transit hop at [p] has [info.upstream == remote]. *)
Definition transit_match (h : heap) (remote : RouterID) (p : ptr) : Prop :=
  ∃ hop, transit_hops h !! p = Some hop ∧ info_upstream (info hop) = remote.

(** A registry in which the own path at address 1 and the transit hop at
    address 2 are both registered under the id 1, both with upstream 11. *)
Definition sample_hopA : TransitHop :=
  MkTransitHop (HopInfo 1 2 11 21 10)%Z 0%Z.
Definition sample_hopB : TransitHop :=
  MkTransitHop (HopInfo 1 3 12 22 1000)%Z 40%Z.

Definition sample_heap : heap :=
  Heap {[ 1%positive := sample_path ]}
       {[ 2%positive := sample_hopA; 3%positive := sample_hopB ]}.

Definition sample_context : PathContext :=
  Context sample_router true
    [(1%Z, 1%positive); (2%Z, 1%positive)]
    [(1%Z, 2%positive); (2%Z, 2%positive); (1%Z, 3%positive); (3%Z, 3%positive)].

(** The list that stands for a [std::set<TransitHop*>] is strictly
    ascending. *)
Fixpoint ascending (s : list ptr) : Prop :=
  match s with
  | [] => True
  | p :: rest => Forall (λ q, (p < q)%positive) rest ∧ ascending rest
  end.

(** The hop at [q] is collected by the sweep at time [now]: it is
    registered and expired. *)
Definition reaped (now : llarp_time_t) (h : heap) (c : PathContext) (q : ptr) : Prop :=
  ∃ k t, (k, q) ∈ m_TransitPaths c ∧ transit_hops h !! q = Some t
         ∧ TransitHop_Expired t now = true.

(** The message needs at least [n] bytes: its [BEncode] fails on every
    buffer with fewer bytes left. *)
Definition needs_bytes (msg : IMessage) (n : nat) : Prop :=
  ∀ buf, (size_left buf < n)%nat → (BEncode msg buf).1 = false.

(** A message whose encoding is the given bytes, written when they fit. *)
Definition raw_message (bytes : list byte_t) : IMessage :=
  Message (λ buf,
    if decide (length bytes ≤ size_left buf)%nat then
      (true, Buffer (take (cur buf) (base buf) ++ bytes
                       ++ drop (cur buf + length bytes) (base buf))
                    (sz buf) (cur buf + length bytes))
    else (false, buf)).

(** A property of the sink state that holds where the reader stops. *)
Definition outcome_sat {St} (P : St → Prop) (o : outcome St) : Prop :=
  match o with
  | Returned _ s _ | OutOfBounds s _ => P s
  | OutOfFuel => True
  end.

(** The reader called [BDecode] on the element of index [k]. *)
Definition attempted {Item} (k : nat) (o : outcome (array_reader Item)) : Prop :=
  match o with
  | Returned _ s _ | OutOfBounds s _ => k ∈ decoded_at s
  | OutOfFuel => False
  end.

(** The state of the array reader over an array of [k] elements: the
    decoded indices are [0 .. idx-1], in this order, and [idx ≤ k]. *)
Definition reader_inv {Item} (k : nat) (s : array_reader Item) : Prop :=
  length (array s) = k ∧ (idx s ≤ k)%nat ∧ decoded_at s = seq 0 (idx s).

(** A one-byte element, for the examples. *)
Definition byte_item : BDecodable Z :=
  λ _ buf,
    match peek buf with
    | Some c => (true, c, advance buf)
    | None => (false, 0%Z, buf)
    end.

(** The transit hop at [p] has [info.downstream == remote]. *)
Definition downstream_match (h : heap) (remote : RouterID) (p : ptr) : Prop :=
  ∃ hop, transit_hops h !! p = Some hop ∧ info_downstream (info hop) = remote.

(** Every transit entry points to a live hop and is stored under the TX id
    or the RX id of that hop, as [PutTransitHop] stores it. *)
Definition transit_wf (h : heap) (c : PathContext) : Prop :=
  Forall (λ e, ∃ t, transit_hops h !! e.2 = Some t
                    ∧ (e.1 = info_txID (info t) ∨ e.1 = info_rxID (info t)))
         (m_TransitPaths c).

(** ** Bencode dictionary reader and messages (llarp/util/bencode.hpp) *)

Definition char_d : byte_t := 100%Z.

(** [bencode_read_string(buffer, &strbuf)] is a C function of
    util/bencode.h; it is a parameter of the reader: it reports success,
    the string it found (as a buffer) and the input buffer as it leaves
    it. *)
Definition read_string_t : Type :=
  llarp_buffer_t → bool * llarp_buffer_t * llarp_buffer_t.

(** The callable handed to [bencode_read_dict]: it receives the buffer and
    the key just read, or [nullptr] ([None]) when the dictionary is over. *)
Definition dict_sink_t (St : Type) : Type :=
  St → llarp_buffer_t → option llarp_buffer_t → bool * St * llarp_buffer_t.

(** [bencode_read_dict] after its loop. *)
Definition dict_end {St} (sink : dict_sink_t St) (s : St)
    (buffer : llarp_buffer_t) : outcome St :=
  match peek buffer with
  | None => OutOfBounds s buffer
  | Some c =>
      if decide (c ≠ char_e) then Returned false s buffer
      else
        let '(ok, s', buffer') := sink s (advance buffer) None in
        Returned ok s' buffer'
  end.

(** The loop of [bencode_read_dict]: read a key, hand it to the sink. *)
Fixpoint dict_loop {St} (bencode_read_string : read_string_t)
    (sink : dict_sink_t St) (fuel : nat) (s : St) (buffer : llarp_buffer_t)
    : outcome St :=
  match fuel with
  | O => OutOfFuel
  | S fuel' =>
      if decide (size_left buffer = 0%nat) then dict_end sink s buffer
      else
        match peek buffer with
        | None => OutOfBounds s buffer
        | Some c =>
            if decide (c = char_e) then dict_end sink s buffer
            else
              let '(found, strbuf, buffer1) := bencode_read_string buffer in
              if (found : bool) then
                let '(ok, s', buffer2) := sink s buffer1 (Some strbuf) in
                if (ok : bool)
                then dict_loop bencode_read_string sink fuel' s' buffer2
                else Returned false s' buffer2
              else Returned false s buffer1
        end
  end.

(** [bencode_read_dict(sink, buffer)] *)
Definition bencode_read_dict {St} (bencode_read_string : read_string_t)
    (sink : dict_sink_t St) (fuel : nat) (s : St) (buffer : llarp_buffer_t)
    : outcome St :=
  if decide (size_left buffer < 2)%nat then Returned false s buffer
  else
    match peek buffer with
    | None => OutOfBounds s buffer
    | Some c =>
        if decide (c ≠ char_d) then Returned false s buffer
        else dict_loop bencode_read_string sink fuel s (advance buffer)
    end.

(** [IBEncodeMessage]: a message type gives its pure virtual [DecodeKey];
    the message object is the state [Msg]. *)
Class IBEncodeMessage (Msg : Type) :=
  DecodeKey : Msg → llarp_buffer_t → llarp_buffer_t → bool * Msg * llarp_buffer_t.

(** [IBEncodeMessage::HandleKey(k, val)] *)
Definition HandleKey {Msg} `{IBEncodeMessage Msg} (m : Msg)
    (k : option llarp_buffer_t) (val : llarp_buffer_t)
    : bool * Msg * llarp_buffer_t :=
  match k with
  | None => (true, m, val)
  | Some key =>
      let '(ok, m', val') := DecodeKey m key val in
      if (ok : bool) then (true, m', val') else (false, m', val')
  end.

(** [IBEncodeMessage::operator()(buffer, key)] *)
Definition message_sink {Msg} `{IBEncodeMessage Msg} : dict_sink_t Msg :=
  λ m buffer key, HandleKey m key buffer.

(** [IBEncodeMessage::BDecode(buf)] *)
Definition IBEncodeMessage_BDecode {Msg} `{IBEncodeMessage Msg}
    (bencode_read_string : read_string_t) (m : Msg) (buf : llarp_buffer_t)
    (fuel : nat) : outcome Msg :=
  bencode_read_dict bencode_read_string message_sink fuel m buf.

(** ** Bencode writers (llarp/util/bencode.hpp) *)

(** The C writers of util/bencode.h the templates call; they are
    parameters: each reports success and leaves the buffer as written. *)
Record bencode_writers := Writers {
  bencode_write_bytestring : llarp_buffer_t → list byte_t → bool * llarp_buffer_t;
  bencode_write_uint64 : llarp_buffer_t → Z → bool * llarp_buffer_t;
  bencode_start_list : llarp_buffer_t → bool * llarp_buffer_t;
  bencode_end : llarp_buffer_t → bool * llarp_buffer_t
}.

(** An element type with a [BEncode] member. *)
Class BEncodable (Item : Type) :=
  Item_BEncode : Item → llarp_buffer_t → bool * llarp_buffer_t.

(** [a && b] on writers: [b] runs only when [a] succeeded. *)
Definition and_then (a : bool * llarp_buffer_t)
    (b : llarp_buffer_t → bool * llarp_buffer_t) : bool * llarp_buffer_t :=
  if a.1 then b a.2 else (false, a.2).

(** [BEncodeWriteDictMsgType(buf, k, t)]: [k] and [t] are one character
    each. *)
Definition BEncodeWriteDictMsgType (w : bencode_writers) (buf : llarp_buffer_t)
    (k t : byte_t) : bool * llarp_buffer_t :=
  and_then (bencode_write_bytestring w buf [k])
           (λ buf, bencode_write_bytestring w buf [t]).

(** [BEncodeWriteDictString(k, str, buf)] *)
Definition BEncodeWriteDictString (w : bencode_writers) (k : byte_t)
    (str : list byte_t) (buf : llarp_buffer_t) : bool * llarp_buffer_t :=
  and_then (bencode_write_bytestring w buf [k])
           (λ buf, bencode_write_bytestring w buf str).

(** [BEncodeWriteDictEntry(k, o, buf)] *)
Definition BEncodeWriteDictEntry {Item} `{BEncodable Item} (w : bencode_writers)
    (k : byte_t) (o : Item) (buf : llarp_buffer_t) : bool * llarp_buffer_t :=
  and_then (bencode_write_bytestring w buf [k]) (Item_BEncode o).

(** [BEncodeWriteDictInt(k, i, buf)] *)
Definition BEncodeWriteDictInt (w : bencode_writers) (k : byte_t) (i : Z)
    (buf : llarp_buffer_t) : bool * llarp_buffer_t :=
  and_then (bencode_write_bytestring w buf [k])
           (λ buf, bencode_write_uint64 w buf i).

(** The loop of [BEncodeWriteList] (and the range-for of
    [BEncodeWriteDictBEncodeList]): encode the items in order, stop at the
    first that fails. *)
Fixpoint write_items {Item} `{BEncodable Item} (items : list Item)
    (buf : llarp_buffer_t) : bool * llarp_buffer_t :=
  match items with
  | [] => (true, buf)
  | item :: rest =>
      let '(ok, buf') := Item_BEncode item buf in
      if (ok : bool) then write_items rest buf' else (false, buf')
  end.

(** [BEncodeWriteList(itr, end, buf)] over the range [items]. *)
Definition BEncodeWriteList {Item} `{BEncodable Item} (w : bencode_writers)
    (items : list Item) (buf : llarp_buffer_t) : bool * llarp_buffer_t :=
  let '(ok, buf) := bencode_start_list w buf in
  if negb ok then (false, buf)
  else
    let '(ok, buf) := write_items items buf in
    if negb ok then (false, buf) else bencode_end w buf.

(** [BEncodeWriteDictList(k, list, buf)] *)
Definition BEncodeWriteDictList {Item} `{BEncodable Item} (w : bencode_writers)
    (k : byte_t) (items : list Item) (buf : llarp_buffer_t)
    : bool * llarp_buffer_t :=
  and_then (bencode_write_bytestring w buf [k]) (BEncodeWriteList w items).

(** [BEncodeWriteDictBEncodeList(k, l, buf)]: the list holds pointers to the
    items; they are read, not written, so the items stand for them. *)
Definition BEncodeWriteDictBEncodeList {Item} `{BEncodable Item}
    (w : bencode_writers) (k : byte_t) (l : list Item) (buf : llarp_buffer_t)
    : bool * llarp_buffer_t :=
  let '(ok, buf) := bencode_write_bytestring w buf [k] in
  if negb ok then (false, buf)
  else
    let '(ok, buf) := bencode_start_list w buf in
    if negb ok then (false, buf)
    else
      let '(ok, buf) := write_items l buf in
      if negb ok then (false, buf) else bencode_end w buf.

(** The loop of [BEncodeWriteDictArray]:
    [for(idx = 0; idx < array.size(); ++idx)], with [todo] the number of
    indices left. *)
Fixpoint write_array_from {Item} `{BEncodable Item} (todo idx : nat)
    (array : list Item) (buf : llarp_buffer_t) : bool * llarp_buffer_t :=
  match todo with
  | O => (true, buf)
  | S todo' =>
      match array !! idx with
      | None => (false, buf)
      | Some item =>
          let '(ok, buf') := Item_BEncode item buf in
          if (ok : bool) then write_array_from todo' (S idx) array buf'
          else (false, buf')
      end
  end.

(** [BEncodeWriteDictArray(k, array, buf)] *)
Definition BEncodeWriteDictArray {Item} `{BEncodable Item}
    (w : bencode_writers) (k : byte_t) (array : list Item)
    (buf : llarp_buffer_t) : bool * llarp_buffer_t :=
  let '(ok, buf) := bencode_write_bytestring w buf [k] in
  if negb ok then (false, buf)
  else
    let '(ok, buf) := bencode_start_list w buf in
    if negb ok then (false, buf)
    else
      let '(ok, buf) := write_array_from (length array) 0 array buf in
      if negb ok then (false, buf) else bencode_end w buf.

(** Sample writers over a bounded buffer: one byte for the list marks, the
    bytes themselves for a string. *)
Definition put_bytes (buf : llarp_buffer_t) (bytes : list byte_t)
    : bool * llarp_buffer_t :=
  if decide (length bytes ≤ size_left buf)%nat then
    (true, Buffer (take (cur buf) (base buf) ++ bytes
                     ++ drop (cur buf + length bytes) (base buf))
                  (sz buf) (cur buf + length bytes))
  else (false, buf).

Definition sample_writers : bencode_writers :=
  Writers put_bytes (λ buf i, put_bytes buf [i])
          (λ buf, put_bytes buf [char_l]) (λ buf, put_bytes buf [char_e]).

Definition byte_item_encode : BEncodable Z := λ x buf, put_bytes buf [x].

(** * Properties *)

(** ** Forwarding of build requests *)

Lemma drain_frames_spec (frames acc : list EncryptedFrame) :
  drain_frames frames acc = ([], acc ++ frames).
Proof.
  revert acc. induction frames as [|f frames IH]; intros acc; simpl.
  - by rewrite app_nil_r.
  - rewrite IH. by rewrite <- app_assoc.
Qed.

(** C5: for every frame queue, the empty one included, [ForwardLRCM] hands
    exactly one message to the transport, a construction message holding
    all the frames of the queue in their order; the queue is empty on
    return; the result is the transport's answer for that message; the
    registry maps are untouched. *)
Theorem ForwardLRCM_one_send (c : PathContext) (nextHop : RouterID)
    (frames : list EncryptedFrame) :
  let '(ok, queue, c') := ForwardLRCM c nextHop frames in
  outbound (m_Router c')
    = outbound (m_Router c) ++ [(nextHop, LR_CommitMessage frames)]
  ∧ queue = []
  ∧ ok = link_accepts (m_Router c) (outbound (m_Router c)) nextHop
           (LR_CommitMessage frames)
  ∧ m_OurPaths c' = m_OurPaths c
  ∧ m_TransitPaths c' = m_TransitPaths c.
Proof.
  unfold ForwardLRCM. rewrite drain_frames_spec. simpl. done.
Qed.

(** ** Expiry of own paths *)

Lemma u64_id (z : Z) : (0 ≤ z < 2 ^ 64)%Z → u64 z = z.
Proof. intros Hz. unfold u64, llarp_time_bits. by apply Z.mod_small. Qed.

Lemma u64_sub_wrap (a b : Z) :
  (0 ≤ a < 2 ^ 64)%Z → (0 ≤ b < 2 ^ 64)%Z → (a < b)%Z →
  u64 (a - b) = (a - b + 2 ^ 64)%Z.
Proof.
  intros Ha Hb Hlt. unfold u64, llarp_time_bits.
  symmetry. apply (Z.mod_unique_pos _ _ (-1)); lia.
Qed.

(** C9: [Path::Expired] compares the difference taken modulo 2^64. When
    [now] is not before [buildStarted] this is the real age; when [now] is
    before [buildStarted] the difference wraps to [2^64 - (buildStarted -
    now)] and the path is reported expired exactly when that value exceeds
    the lifetime. *)
Theorem Expired_unsigned_wraparound (p : Path) (c : PathHopConfig)
    (now : llarp_time_t) :
  hops p !! 0%nat = Some c →
  (0 ≤ now < 2 ^ 64)%Z →
  (0 ≤ buildStarted p < 2 ^ 64)%Z →
  Expired p now
    = Some (bool_decide ((now - buildStarted p) mod 2 ^ 64 > lifetime c)%Z)
  ∧ ((buildStarted p ≤ now)%Z →
       Expired p now = Some (bool_decide (now - buildStarted p > lifetime c)%Z))
  ∧ ((now < buildStarted p)%Z →
       Expired p now
         = Some (bool_decide (2 ^ 64 - (buildStarted p - now) > lifetime c)%Z)).
Proof.
  intros Hc Hnow Hbs. unfold Expired. rewrite Hc. simpl.
  assert (Hltb : ∀ a b : Z, (a <? b)%Z = bool_decide (b > a)%Z).
  { intros a b. destruct (Z.ltb_spec a b); symmetry;
      [apply bool_decide_eq_true | apply bool_decide_eq_false]; lia. }
  repeat split.
  - by rewrite Hltb.
  - intros Hle. rewrite u64_id by lia. by rewrite Hltb.
  - intros Hlt. rewrite u64_sub_wrap by lia. rewrite Hltb.
    f_equal. apply bool_decide_ext. lia.
Qed.

Lemma Expired_unsigned_wraparound_witness :
  Expired sample_path 5%Z
    = Some (bool_decide (2 ^ 64 - (buildStarted sample_path - 5) > hour_ms)%Z).
Proof.
  refine (proj2 (proj2 (Expired_unsigned_wraparound sample_path
            (HopConfig 1%Z 2%Z (RC 11%Z) 7%Z hour_ms) 5%Z _ _ _)) _);
    first reflexivity; simpl; lia.
Defined.

(** ** Construction of a path *)

Lemma randomize_hops_length h blank g :
  length (randomize_hops h blank g).1 = length h.
Proof.
  revert g. induction h as [|x h IH]; intros g; simpl; [done|].
  specialize (IH (RandomBytes (entropy g) (S (S (drawn g))))).
  destruct (randomize_hops h blank _) as [tl g3]. simpl in *. by rewrite IH.
Qed.

Lemma randomize_hops_drawn h blank g :
  (randomize_hops h blank g).2
    = RandomBytes (entropy g) (drawn g + 2 * length h).
Proof.
  revert g. induction h as [|x h IH]; intros g; simpl.
  - destruct g as [e d]. simpl. f_equal. lia.
  - specialize (IH (RandomBytes (entropy g) (S (S (drawn g))))).
    destruct (randomize_hops h blank _) as [tl g3]. simpl in *.
    rewrite IH. f_equal. lia.
Qed.

Lemma randomize_hops_lookup h blank g i x :
  h !! i = Some x →
  (randomize_hops h blank g).1 !! i
    = Some (HopConfig (entropy g (drawn g + 2 * i))
                      (entropy g (drawn g + 2 * i + 1))
                      (hop_router x) (shared blank) (lifetime blank)).
Proof.
  revert g i. induction h as [|y h IH]; intros g i Hi; [done|].
  simpl. specialize (IH (RandomBytes (entropy g) (S (S (drawn g))))).
  destruct (randomize_hops h blank _) as [tl g3]. simpl in *.
  destruct i as [|i]; simpl in *.
  - inversion Hi; subst. unfold set_rxID, set_txID, set_router. simpl.
    do 2 f_equal; f_equal; lia.
  - rewrite (IH i Hi). do 2 f_equal; f_equal; lia.
Qed.

Lemma relink_spec (n : nat) (hs : list PathHopConfig) :
  (n < length hs)%nat →
  ∃ hs', relink n hs = Some hs' ∧ length hs' = length hs
         ∧ ∀ j, hs' !! j = relinked hs n j.
Proof.
  revert hs. induction n as [|n IH]; intros hs Hn.
  - exists hs. repeat split. intros j. unfold relinked.
    case_decide; [lia | done].
  - simpl.
    destruct (lookup_lt_is_Some_2 hs (S n) Hn) as [c Hc].
    destruct (lookup_lt_is_Some_2 hs n ltac:(lia)) as [p Hp].
    rewrite Hc, Hp. simpl.
    destruct (IH (<[S n := set_txID (rxID p) c]> hs)) as (hs' & Hr & Hlen & Hlk).
    { rewrite length_insert. lia. }
    exists hs'. split; [done|]. split; [by rewrite Hlen, length_insert|].
    intros j. rewrite Hlk. unfold relinked.
    destruct (decide (j = S n)) as [->|Hne].
    + rewrite decide_False by lia. rewrite decide_True by lia.
      rewrite list_lookup_insert_eq by done.
      replace (S n - 1)%nat with n by lia. by rewrite Hc, Hp.
    + case_decide.
      * rewrite decide_True by lia.
        rewrite !list_lookup_insert_ne by lia. done.
      * rewrite decide_False by lia.
        by rewrite list_lookup_insert_ne by lia.
Qed.

Lemma Path_ctor_spec (h : llarp_path_hops) (blank : PathHopConfig)
    (started : llarp_time_t) (parser : llarp_buffer_t → bool)
    (g : randombytes) :
  (1 ≤ numHops h)%nat →
  ∃ hs,
    Path_ctor h blank started parser g
      = Some (MkPath hs started parser,
              RandomBytes (entropy g) (drawn g + 2 * numHops h))
    ∧ length hs = numHops h
    ∧ ∀ j, hs !! j = built_hop h blank g j.
Proof.
  intros Hn. unfold Path_ctor, numHops in *.
  pose proof (randomize_hops_length h blank g) as Hlen.
  pose proof (randomize_hops_drawn h blank g) as Hdrawn.
  pose proof (randomize_hops_lookup h blank g) as Hlk.
  destruct (randomize_hops h blank g) as [hs g1]. simpl in *.
  destruct (length h) as [|last] eqn:Hl; [lia|].
  destruct (relink_spec last hs) as (hs' & Hr & Hlen' & Hrl); [lia|].
  rewrite Hr. simpl. exists hs'. subst g1.
  split_and!; [done | lia |].
  intros j. rewrite Hrl. unfold relinked, built_hop.
  destruct (h !! j) as [x|] eqn:Hx; simpl.
  - rewrite (Hlk _ _ Hx). pose proof (lookup_lt_Some _ _ _ Hx) as Hjlt.
    case_decide as Hd.
    + destruct j as [|j']; [lia|]. simpl.
      replace (j' - 0)%nat with j' by lia.
      destruct (lookup_lt_is_Some_2 h j') as [x' Hx']; [lia|].
      rewrite (Hlk _ _ Hx'). simpl. unfold set_txID. simpl. done.
    + destruct j as [|j']; [|lia]. do 2 f_equal. f_equal. lia.
  - apply lookup_ge_None in Hx.
    assert (hs !! j = None) as Hnone by (apply lookup_ge_None; lia).
    rewrite Hnone. by case_decide.
Qed.

(** C3: for every choice of [n ≥ 1] routers the constructor returns a path
    of [n] hops in which every hop but the first carries the [rxID] of its
    predecessor as [txID], while every [rxID], and the [txID] of the first
    hop, is the value the generator produced for it: the draws are numbered
    from the state of the generator on entry, two per hop, [txID] first. *)
Theorem Path_ctor_chains_hops (h : llarp_path_hops) (blank : PathHopConfig)
    (started : llarp_time_t) (parser : llarp_buffer_t → bool)
    (g : randombytes) :
  (1 ≤ numHops h)%nat →
  ∃ p g',
    Path_ctor h blank started parser g = Some (p, g')
    ∧ length (hops p) = numHops h
    ∧ g' = RandomBytes (entropy g) (drawn g + 2 * numHops h)
    ∧ (∀ i c c', (1 ≤ i < numHops h)%nat →
         hops p !! i = Some c → hops p !! (i - 1)%nat = Some c' →
         txID c = rxID c')
    ∧ (∀ i c, hops p !! i = Some c →
         rxID c = entropy g (drawn g + 2 * i + 1))
    ∧ (∀ c, hops p !! 0%nat = Some c → txID c = entropy g (drawn g)).
Proof.
  intros Hn.
  destruct (Path_ctor_spec h blank started parser g Hn) as (hs & Hp & Hlen & Hlk).
  eexists _, _. split; [exact Hp|]. simpl. split_and!; [done | done | | | ].
  - intros i c c' Hi Hc Hc'. rewrite Hlk in Hc, Hc'. unfold built_hop in *.
    destruct (h !! i); simpl in Hc; [|done].
    destruct (h !! (i - 1)%nat); simpl in Hc'; [|done].
    inversion Hc; inversion Hc'; subst; simpl.
    destruct i as [|i']; [lia|]. simpl. replace (i' - 0)%nat with i' by lia.
    done.
  - intros i c Hc. rewrite Hlk in Hc. unfold built_hop in Hc.
    destruct (h !! i); simpl in Hc; [|done]. by inversion Hc.
  - intros c Hc. rewrite Hlk in Hc. unfold built_hop in Hc.
    destruct (h !! 0%nat); simpl in Hc; [|done]. by inversion Hc.
Qed.

Lemma Path_ctor_chains_hops_witness :
  ∃ p g',
    Path_ctor sample_chosen sample_blank 1000%Z (λ _, true) sample_rng
      = Some (p, g')
    ∧ length (hops p) = numHops sample_chosen
    ∧ g' = RandomBytes (entropy sample_rng)
             (drawn sample_rng + 2 * numHops sample_chosen)
    ∧ (∀ i c c', (1 ≤ i < numHops sample_chosen)%nat →
         hops p !! i = Some c → hops p !! (i - 1)%nat = Some c' →
         txID c = rxID c')
    ∧ (∀ i c, hops p !! i = Some c →
         rxID c = entropy sample_rng (drawn sample_rng + 2 * i + 1))
    ∧ (∀ c, hops p !! 0%nat = Some c →
         txID c = entropy sample_rng (drawn sample_rng)).
Proof.
  apply (Path_ctor_chains_hops sample_chosen sample_blank 1000%Z (λ _, true)
           sample_rng).
  simpl. lia.
Defined.

Example Path_ctor_sample :
  (λ r, hops r.1) <$> Path_ctor sample_chosen sample_blank 1000%Z (λ _, true) sample_rng
  = Some [HopConfig 100 101 (RC 11) 0 hour_ms;
          HopConfig 101 103 (RC 12) 0 hour_ms;
          HopConfig 103 105 (RC 13) 0 hour_ms]%Z.
Proof. reflexivity. Qed.

Example Path_ctor_no_hops :
  Path_ctor [] sample_blank 1000%Z (λ _, true) sample_rng = None.
Proof. reflexivity. Qed.

(** C6: [Path::Expired] is the comparison [now - buildStarted >
    hops[0].lifetime] (the difference taken as the unsigned 64-bit
    subtraction of the code, the real difference when [now] is not before
    [buildStarted]); a path built over any [n ≥ 1] hops whose lifetimes are
    one hour, with its build start recorded as [t0], is not expired at [t0]
    and is expired two hours later. *)
Theorem Expired_lifetime_rule :
  (∀ (p : Path) (c : PathHopConfig) (now : llarp_time_t),
     hops p !! 0%nat = Some c →
     Expired p now
       = Some (bool_decide (u64 (now - buildStarted p) > lifetime c)%Z)
     ∧ ((0 ≤ buildStarted p ≤ now)%Z → (now < 2 ^ 64)%Z →
        Expired p now
          = Some (bool_decide (now - buildStarted p > lifetime c)%Z)))
  ∧ (∀ (h : llarp_path_hops) (blank : PathHopConfig) (t0 : llarp_time_t)
       (parser : llarp_buffer_t → bool) (g : randombytes),
       (1 ≤ numHops h)%nat →
       lifetime blank = hour_ms →
       (0 ≤ t0 < 2 ^ 64)%Z →
       ∃ p g',
         Path_ctor h blank t0 parser g = Some (p, g')
         ∧ buildStarted p = t0
         ∧ (∀ c, c ∈ hops p → lifetime c = hour_ms)
         ∧ Expired p t0 = Some false
         ∧ Expired p (u64 (t0 + 2 * hour_ms)) = Some true).
Proof.
  assert (Hltb : ∀ a b : Z, (a <? b)%Z = bool_decide (b > a)%Z).
  { intros a b. destruct (Z.ltb_spec a b); symmetry;
      [apply bool_decide_eq_true | apply bool_decide_eq_false]; lia. }
  split.
  - intros p c now Hc. unfold Expired. rewrite Hc. simpl. split.
    + by rewrite Hltb.
    + intros Hbs Hnow. rewrite u64_id by lia. by rewrite Hltb.
  - intros h blank t0 parser g Hn Hlife Ht0.
    destruct (Path_ctor_spec h blank t0 parser g Hn) as (hs & Hp & Hlen & Hlk).
    eexists _, _. split; [exact Hp|]. simpl.
    assert (Hall : ∀ c, c ∈ hs → lifetime c = hour_ms).
    { intros c Hin. apply list_elem_of_lookup in Hin as [j Hj].
      rewrite Hlk in Hj. unfold built_hop in Hj.
      destruct (h !! j); simpl in Hj; [|done]. by inversion Hj. }
    destruct (lookup_lt_is_Some_2 hs 0%nat) as [c0 Hc0]; [lia|].
    assert (lifetime c0 = hour_ms) as Hl0.
    { apply Hall. apply list_elem_of_lookup. eauto. }
    split_and!; [done | done | | ].
    + unfold Expired. simpl. rewrite Hc0. simpl. rewrite Hl0.
      replace (t0 - t0)%Z with 0%Z by lia. done.
    + unfold Expired. simpl. rewrite Hc0. simpl. rewrite Hl0.
      f_equal. apply Z.ltb_lt. unfold u64, llarp_time_bits, hour_ms.
      rewrite Zminus_mod_idemp_l.
      replace (t0 + 2 * 3600000 - t0)%Z with 7200000%Z by lia.
      done.
Qed.

Lemma Expired_lifetime_rule_witness :
  ∃ p g',
    Path_ctor sample_chosen sample_blank 1000%Z (λ _, true) sample_rng
      = Some (p, g')
    ∧ buildStarted p = 1000%Z
    ∧ (∀ c, c ∈ hops p → lifetime c = hour_ms)
    ∧ Expired p 1000%Z = Some false
    ∧ Expired p (u64 (1000 + 2 * hour_ms)) = Some true.
Proof.
  apply (proj2 Expired_lifetime_rule sample_chosen sample_blank 1000%Z
           (λ _, true) sample_rng).
  - simpl. lia.
  - reflexivity.
  - lia.
Defined.

(** ** Layered cipher passes *)

Section layered_passes.
Context {B K : Type} (pass : B → K → B).
Hypothesis pass_involutive : ∀ b k, pass (pass b k) k = b.
Hypothesis pass_commutes :
  ∀ b k1 k2, pass (pass b k1) k2 = pass (pass b k2) k1.

Lemma foldl_pass_commutes (ks : list K) (b : B) (k : K) :
  pass (foldl pass b ks) k = foldl pass (pass b k) ks.
Proof.
  revert b. induction ks as [|k' ks IH]; intros b; simpl; [done|].
  by rewrite IH, pass_commutes.
Qed.

Lemma foldl_pass_twice (ks : list K) (b : B) :
  foldl pass (foldl pass b ks) ks = b.
Proof.
  revert b. induction ks as [|k ks IH]; intros b; simpl; [done|].
  by rewrite <- foldl_pass_commutes, IH, pass_involutive.
Qed.
End layered_passes.

Lemma xor_stream_length ks data : length (xor_stream ks data) = length data.
Proof. unfold xor_stream. by rewrite length_imap. Qed.

Lemma xor_stream_lookup ks data i :
  xor_stream ks data !! i = (λ b, Z.lxor b (ks i)) <$> data !! i.
Proof. unfold xor_stream. by rewrite list_lookup_imap. Qed.

Lemma xor_stream_involutive ks data : xor_stream ks (xor_stream ks data) = data.
Proof.
  apply list_eq. intros i. rewrite !xor_stream_lookup.
  destruct (data !! i) as [b|]; simpl; [|done].
  by rewrite Z.lxor_assoc, Z.lxor_nilpotent, Z.lxor_0_r.
Qed.

Lemma xor_stream_commutes ks1 ks2 data :
  xor_stream ks2 (xor_stream ks1 data) = xor_stream ks1 (xor_stream ks2 data).
Proof.
  apply list_eq. intros i. rewrite !xor_stream_lookup.
  destruct (data !! i) as [b|]; simpl; [|done].
  f_equal. rewrite !Z.lxor_assoc. f_equal. apply Z.lxor_comm.
Qed.

Lemma take_app_drop_same {A} (n : nat) (xs l : list A) :
  length xs = length (take n l) →
  take n (xs ++ drop n l) = xs ∧ drop n (xs ++ drop n l) = drop n l.
Proof.
  intros Hlen. rewrite length_take in Hlen.
  destruct (decide (n ≤ length l)%nat) as [Hle|Hgt].
  - assert (length xs = n) as Hxs by lia.
    split.
    + rewrite take_app_le by lia. apply firstn_all2. lia.
    + rewrite drop_app_ge by lia. replace (n - length xs)%nat with 0%nat by lia.
      done.
  - rewrite (drop_ge l n) by lia. rewrite app_nil_r. split.
    + apply firstn_all2. lia.
    + apply drop_ge. lia.
Qed.

Lemma xchacha20_involutive c buf k n :
  xchacha20 c (xchacha20 c buf k n) k n = buf.
Proof.
  destruct buf as [b s cu]. unfold xchacha20. simpl.
  destruct (take_app_drop_same s (xor_stream (keystream c k n) (take s b)) b)
    as [Ht Hd]; [apply xor_stream_length|].
  rewrite Ht, Hd, xor_stream_involutive, take_drop. done.
Qed.

Lemma xchacha20_commutes c buf k1 k2 n :
  xchacha20 c (xchacha20 c buf k1 n) k2 n
  = xchacha20 c (xchacha20 c buf k2 n) k1 n.
Proof.
  destruct buf as [b s cu]. unfold xchacha20. simpl.
  destruct (take_app_drop_same s (xor_stream (keystream c k1 n) (take s b)) b)
    as [Ht1 Hd1]; [apply xor_stream_length|].
  destruct (take_app_drop_same s (xor_stream (keystream c k2 n) (take s b)) b)
    as [Ht2 Hd2]; [apply xor_stream_length|].
  rewrite Ht1, Hd1, Ht2, Hd2. by rewrite xor_stream_commutes.
Qed.

(** The cipher pass acts on the [sz] bytes of the buffer only: copying
    them out (as [Encrypted] does) and wrapping the copy in a buffer
    commutes with the pass. *)
Lemma xchacha20_Encrypted c buf k n :
  StackBuffer (Encrypted (xchacha20 c buf k n))
  = xchacha20 c (StackBuffer (Encrypted buf)) k n.
Proof.
  destruct buf as [b s cu]. unfold xchacha20, Encrypted, StackBuffer. simpl.
  destruct (take_app_drop_same s (xor_stream (keystream c k n) (take s b)) b)
    as [Ht Hd]; [apply xor_stream_length|].
  rewrite Ht, xor_stream_length.
  rewrite firstn_all, drop_all, app_nil_r. done.
Qed.

Lemma cipher_loop_Encrypted c (hs : list PathHopConfig) Y buf :
  StackBuffer (Encrypted (foldl (λ b hop, xchacha20 c b (shared hop) Y) buf hs))
  = foldl (λ b hop, xchacha20 c b (shared hop) Y) (StackBuffer (Encrypted buf)) hs.
Proof.
  revert buf. induction hs as [|hop hs IH]; intros buf; simpl; [done|].
  by rewrite IH, xchacha20_Encrypted.
Qed.

Lemma cipher_loop_twice c (hs : list PathHopConfig) Y buf :
  foldl (λ b hop, xchacha20 c b (shared hop) Y)
    (foldl (λ b hop, xchacha20 c b (shared hop) Y) buf hs) hs = buf.
Proof.
  apply (foldl_pass_twice (λ b hop, xchacha20 c b (shared hop) Y)).
  - intros b k. apply xchacha20_involutive.
  - intros b k1 k2. apply xchacha20_commutes.
Qed.

(** C2: for every payload buffer, nonce and path with at least one hop,
    whatever the shared secrets and the keystream generator: the cipher
    loop of [HandleUpstream] followed by the cipher loop of
    [HandleDownstream] under the same nonce gives the buffer back; and
    [HandleUpstream] hands the link layer one relay-upstream message whose
    body [X], run through [HandleDownstream] with the nonce of the message,
    reaches the routing-message parser as exactly the payload bytes. *)
Theorem layered_cipher_roundtrip (p : Path) (payload : llarp_buffer_t)
    (Y : TunnelNonce) (r : llarp_router) :
  hops p ≠ [] →
  foldl (λ b hop, xchacha20 (crypto r) b (shared hop) Y)
    (foldl (λ b hop, xchacha20 (crypto r) b (shared hop) Y) payload (hops p))
    (hops p) = payload
  ∧ ∃ ok r' up pathid X,
      HandleUpstream p payload Y r = Some (ok, r')
      ∧ outbound r' = outbound r ++ [(up, RelayUpstreamMessage X Y pathid)]
      ∧ Upstream p = Some up ∧ TXID p = Some pathid
      ∧ HandleDownstream p (StackBuffer X) Y r'
        = HandleRoutingMessage p (StackBuffer (Encrypted payload)) r'.
Proof.
  intros Hne. split; [apply cipher_loop_twice|].
  destruct (hops p) as [|c0 hs] eqn:Hhops; [done|].
  unfold HandleUpstream, TXID, Upstream. rewrite Hhops. simpl.
  eexists _, _, _, _, _. split; [reflexivity|]. simpl.
  split_and!; [reflexivity | reflexivity | reflexivity |].
  unfold HandleDownstream. rewrite Hhops. f_equal.
  change (foldl (λ b hop, xchacha20 (crypto r) b (shared hop) Y)
            (xchacha20 (crypto r) payload (shared c0) Y) hs)
    with (foldl (λ b hop, xchacha20 (crypto r) b (shared hop) Y) payload (c0 :: hs)).
  rewrite cipher_loop_Encrypted.
  change (foldl (λ b hop, xchacha20 (crypto r) b (shared hop) Y)
            (xchacha20 (crypto r) ?b (shared c0) Y) hs)
    with (foldl (λ b hop, xchacha20 (crypto r) b (shared hop) Y) b (c0 :: hs)).
  apply (cipher_loop_twice (crypto r) (c0 :: hs)).
Qed.

Lemma layered_cipher_roundtrip_witness :
  let payload := Buffer [10; 20; 30; 40]%Z 3 0 in
  foldl (λ b hop, xchacha20 (crypto sample_router) b (shared hop) 5%Z)
    (foldl (λ b hop, xchacha20 (crypto sample_router) b (shared hop) 5%Z)
       payload (hops sample_path))
    (hops sample_path) = payload
  ∧ ∃ ok r' up pathid X,
      HandleUpstream sample_path payload 5%Z sample_router = Some (ok, r')
      ∧ outbound r'
        = outbound sample_router ++ [(up, RelayUpstreamMessage X 5%Z pathid)]
      ∧ Upstream sample_path = Some up ∧ TXID sample_path = Some pathid
      ∧ HandleDownstream sample_path (StackBuffer X) 5%Z r'
        = HandleRoutingMessage sample_path (StackBuffer (Encrypted payload)) r'.
Proof.
  apply (layered_cipher_roundtrip sample_path (Buffer [10; 20; 30; 40]%Z 3 0)
           5%Z sample_router).
  simpl. discriminate.
Defined.

Example HandleUpstream_sample :
  (λ res, outbound res.2)
    <$> HandleUpstream sample_path (Buffer [10; 20; 30; 40]%Z 3 0) 5%Z sample_router
  = Some [(11, RelayUpstreamMessage [5; 24; 15] 5 1)]%Z.
Proof. reflexivity. Qed.

(** ** Multimaps *)

Lemma elem_of_equal_range {V} (m : multimap V) (k : PathID_t) (v : V) :
  v ∈ equal_range m k ↔ (k, v) ∈ m.
Proof.
  unfold equal_range. rewrite list_elem_of_fmap. split.
  - intros [[k' v'] [-> Hin]]. apply list_elem_of_filter in Hin as [Hk Hin].
    simpl in *. by subst.
  - intros Hin. exists (k, v). split; [done|]. by apply list_elem_of_filter.
Qed.

Lemma equal_range_app {V} (m1 m2 : multimap V) (k : PathID_t) :
  equal_range (m1 ++ m2) k = equal_range m1 k ++ equal_range m2 k.
Proof. unfold equal_range. by rewrite filter_app, fmap_app. Qed.

Lemma elem_of_erase {V} (m : multimap V) (k k' : PathID_t) (v : V) :
  (k, v) ∈ erase m k' ↔ (k, v) ∈ m ∧ k ≠ k'.
Proof. unfold erase. rewrite list_elem_of_filter. simpl. tauto. Qed.

Lemma equal_range_nil {V} (m : multimap V) (k : PathID_t) :
  equal_range m k = [] ↔ ∀ v, (k, v) ∉ m.
Proof.
  split.
  - intros Hnil v Hin. apply elem_of_equal_range in Hin. rewrite Hnil in Hin.
    by apply not_elem_of_nil in Hin.
  - intros Hno. destruct (equal_range m k) as [|v l] eqn:Hr; [done|].
    exfalso. apply (Hno v). apply elem_of_equal_range. rewrite Hr. left.
Qed.

Lemma equal_range_erase_same {V} (m : multimap V) (k : PathID_t) :
  equal_range (erase m k) k = [].
Proof. apply equal_range_nil. intros v Hin. apply elem_of_erase in Hin. tauto. Qed.

(** ** The range scan of [MapGet] and [MapHas] *)

Lemma decides_cons {V} (check : V → option bool) P (a : V) l :
  decides check P (a :: l) →
  (∃ b : bool, check a = Some b ∧ (b = true ↔ P a)) ∧ decides check P l.
Proof.
  intros Hd. split; [apply Hd; left|]. intros x Hx. apply Hd. by right.
Qed.

Lemma first_accepted_first_such {V} (check : V → option bool) P (l : list V) v :
  decides check P l → first_such P l v →
  first_accepted check l = Some (Some v).
Proof.
  intros Hd (l1 & l2 & -> & Hv & Hl1).
  induction l1 as [|a l1 IH]; simpl in *.
  - apply decides_cons in Hd as [(b & -> & Hb) _]. simpl.
    apply Hb in Hv. by subst b.
  - apply decides_cons in Hd as [(b & -> & Hb) Hd]. simpl.
    inversion Hl1 as [|? ? Ha Hl1']; subst.
    destruct b; [by destruct Ha; apply Hb | by apply IH].
Qed.

Lemma first_accepted_no_match {V} (check : V → option bool) P (l : list V) :
  decides check P l → Forall (λ x, ¬ P x) l →
  first_accepted check l = Some None.
Proof.
  intros Hd Hl. induction l as [|a l IH]; simpl; [done|].
  apply decides_cons in Hd as [(b & -> & Hb) Hd]. simpl.
  inversion Hl as [|? ? Ha Hl']; subst.
  destruct b; [by destruct Ha; apply Hb | by apply IH].
Qed.

Lemma first_such_exists {V} (check : V → option bool) P (l : list V) :
  decides check P l → (∃ x, x ∈ l ∧ P x) → ∃ v, first_such P l v.
Proof.
  intros Hd. induction l as [|a l IH]; intros (x & Hx & HPx).
  - by apply not_elem_of_nil in Hx.
  - apply decides_cons in Hd as [(b & Hc & Hb) Hd].
    destruct b.
    + exists a, [], l. split_and!; [done | by apply Hb | constructor].
    + assert (¬ P a) as Hna by (intros HPa; apply Hb in HPa; done).
      apply elem_of_cons in Hx as [->|Hx]; [done|].
      destruct (IH Hd) as (v & l1 & l2 & -> & Hv & Hl1); [by eauto|].
      exists v, (a :: l1), l2. split_and!; [done | done | by constructor].
Qed.

Lemma any_accepted_first_accepted {V} (check : V → option bool) (l : list V) :
  any_accepted check l
  = r ← first_accepted check l; Some (bool_decide (is_Some r)).
Proof.
  induction l as [|v l IH]; simpl; [done|].
  destruct (check v) as [[|]|]; simpl; done.
Qed.

Lemma first_such_elem {V} (P : V → Prop) (l : list V) v :
  first_such P l v → v ∈ l ∧ P v.
Proof.
  intros (l1 & l2 & -> & Hv & _). split; [|done].
  apply elem_of_app. right. left.
Qed.

(** ** Lookups in the registry *)

Lemma own_check_decides (h : heap) (c : PathContext) (remote : RouterID)
    (id : PathID_t) :
  own_live h c →
  decides (λ p, path ← paths h !! p; up ← Upstream path;
                Some (bool_decide (up = remote)))
          (own_match h remote) (equal_range (m_OurPaths c) id).
Proof.
  intros Hlive p Hp. apply elem_of_equal_range in Hp.
  unfold own_live in Hlive. rewrite Forall_forall in Hlive.
  destruct (Hlive _ Hp) as (path & Hpath & Hne). simpl in Hpath.
  rewrite Hpath. simpl. unfold own_match, Upstream.
  destruct (hops path) as [|c0 hs] eqn:Hh; [done|]. simpl.
  eexists. split; [reflexivity|]. rewrite bool_decide_eq_true. split.
  - intros <-. exists path. by rewrite Hh.
  - intros (path' & Hp' & Hup). rewrite Hpath in Hp'. inversion Hp'; subst.
    rewrite Hh in Hup. simpl in Hup. by inversion Hup.
Qed.

Lemma transit_check_decides (h : heap) (c : PathContext) (remote : RouterID)
    (id : PathID_t) :
  transit_live h c →
  decides (λ p, hop ← transit_hops h !! p;
                Some (bool_decide (info_upstream (info hop) = remote)))
          (transit_match h remote) (equal_range (m_TransitPaths c) id).
Proof.
  intros Hlive p Hp. apply elem_of_equal_range in Hp.
  unfold transit_live in Hlive. rewrite Forall_forall in Hlive.
  destruct (Hlive _ Hp) as (hop & Hhop). simpl in Hhop.
  rewrite Hhop. simpl. unfold transit_match.
  eexists. split; [reflexivity|]. rewrite bool_decide_eq_true. split.
  - intros <-. by exists hop.
  - intros (hop' & Hp' & Hup). rewrite Hhop in Hp'. by inversion Hp'; subst.
Qed.

(** C4: in a registry whose own-path entries are live, when some own path
    registered under [id] has [hops[0].router == R], [GetByUpstream R id]
    returns an own-path entry registered under [id] with that router (the
    first such entry of the key's range), whatever the transit map holds;
    when no own path under [id] matches, it returns the first transit entry
    under [id] whose [info.upstream == R], and [nullptr] when no transit
    entry matches either. *)
Theorem GetByUpstream_own_paths_first (h : heap) (c : PathContext)
    (remote : RouterID) (id : PathID_t) :
  own_live h c →
  (∀ p, first_such (own_match h remote) (equal_range (m_OurPaths c) id) p →
        GetByUpstream h c remote id = Some (Some (OwnPath p)))
  ∧ ((∃ p, (id, p) ∈ m_OurPaths c ∧ own_match h remote p) →
      ∃ p, GetByUpstream h c remote id = Some (Some (OwnPath p))
           ∧ (id, p) ∈ m_OurPaths c ∧ own_match h remote p)
  ∧ (transit_live h c →
     (∀ p, (id, p) ∈ m_OurPaths c → ¬ own_match h remote p) →
     (∀ q, first_such (transit_match h remote)
             (equal_range (m_TransitPaths c) id) q →
           GetByUpstream h c remote id = Some (Some (Transit q)))
     ∧ ((∀ q, (id, q) ∈ m_TransitPaths c → ¬ transit_match h remote q) →
        GetByUpstream h c remote id = Some None)).
Proof.
  intros Hown.
  pose proof (own_check_decides h c remote id Hown) as Hdec.
  assert (Hfirst : ∀ p,
    first_such (own_match h remote) (equal_range (m_OurPaths c) id) p →
    GetByUpstream h c remote id = Some (Some (OwnPath p))).
  { intros p Hp. unfold GetByUpstream, MapGet.
    by rewrite (first_accepted_first_such _ _ _ _ Hdec Hp). }
  split_and!; [done | |].
  - intros (p & Hin & Hm).
    destruct (first_such_exists _ _ _ Hdec) as (v & Hv).
    { exists p. split; [by apply elem_of_equal_range | done]. }
    exists v. split; [by apply Hfirst|].
    apply first_such_elem in Hv as [Hv1 Hv2].
    split; [by apply elem_of_equal_range | done].
  - intros Htr Hnone.
    pose proof (transit_check_decides h c remote id Htr) as Hdect.
    assert (Hmiss : MapGet (m_OurPaths c) id
              (λ p, path ← paths h !! p; up ← Upstream path;
                    Some (bool_decide (up = remote))) = Some None).
    { unfold MapGet. apply (first_accepted_no_match _ _ _ Hdec).
      apply Forall_forall. intros p Hp. apply Hnone.
      by apply elem_of_equal_range. }
    split.
    + intros q Hq. unfold GetByUpstream. rewrite Hmiss. simpl.
      unfold MapGet. by rewrite (first_accepted_first_such _ _ _ _ Hdect Hq).
    + intros Hnot. unfold GetByUpstream. rewrite Hmiss. simpl.
      unfold MapGet. rewrite (first_accepted_no_match _ _ _ Hdect); [done|].
      apply Forall_forall. intros q Hq. apply Hnot.
      by apply elem_of_equal_range.
Qed.

Lemma sample_own_live : own_live sample_heap sample_context.
Proof.
  unfold own_live. simpl. repeat constructor; exists sample_path; done.
Qed.

Lemma sample_transit_live : transit_live sample_heap sample_context.
Proof. unfold transit_live. simpl. repeat constructor; eexists; done. Qed.

Example GetByUpstream_sample_own_wins :
  GetByUpstream sample_heap sample_context 11%Z 1%Z = Some (Some (OwnPath 1%positive)).
Proof. reflexivity. Qed.

Example GetByUpstream_sample_transit :
  GetByUpstream sample_heap sample_context 12%Z 1%Z = Some (Some (Transit 3%positive)).
Proof. reflexivity. Qed.

Example GetByUpstream_sample_miss :
  GetByUpstream sample_heap sample_context 99%Z 1%Z = Some None.
Proof. reflexivity. Qed.

Example GetByDownstream_sample :
  GetByDownstream sample_heap sample_context 21%Z 1%Z = Some (Some (Transit 2%positive)).
Proof. reflexivity. Qed.

Lemma GetByUpstream_own_paths_first_witness :
  ∃ p, GetByUpstream sample_heap sample_context 11%Z 1%Z
         = Some (Some (OwnPath p))
       ∧ (1%Z, p) ∈ m_OurPaths sample_context
       ∧ own_match sample_heap 11%Z p.
Proof.
  apply (proj1 (proj2 (GetByUpstream_own_paths_first sample_heap
                         sample_context 11%Z 1%Z sample_own_live))).
  exists 1%positive. split.
  - simpl. left.
  - exists sample_path. split; reflexivity.
Defined.

(** ** The expiry sweep *)

Lemma set_insert_elem (p : ptr) (s : list ptr) (q : ptr) :
  q ∈ set_insert p s ↔ q = p ∨ q ∈ s.
Proof.
  induction s as [|a s IH]; simpl.
  - rewrite list_elem_of_singleton. rewrite elem_of_nil. tauto.
  - destruct (Pos.ltb_spec p a) as [Hlt|Hge].
    + rewrite !elem_of_cons. tauto.
    + destruct (Pos.eqb_spec p a) as [->|Hne].
      * rewrite !elem_of_cons. tauto.
      * rewrite !elem_of_cons, IH. tauto.
Qed.

Lemma set_insert_ascending (p : ptr) (s : list ptr) :
  ascending s → ascending (set_insert p s).
Proof.
  induction s as [|a s IH]; simpl; [by intros _; split; [constructor|]|].
  intros [Ha Hs].
  destruct (Pos.ltb_spec p a) as [Hlt|Hge].
  - simpl. split_and!; [|done|done].
    constructor; [done|]. eapply Forall_impl; [exact Ha|].
    simpl. intros q Hq. lia.
  - destruct (Pos.eqb_spec p a) as [->|Hne]; [by simpl|].
    simpl. split; [|by apply IH].
    apply Forall_forall. intros q Hq. apply set_insert_elem in Hq as [->|Hq].
    + lia.
    + rewrite Forall_forall in Ha. by apply Ha.
Qed.

Lemma ascending_NoDup (s : list ptr) : ascending s → NoDup s.
Proof.
  induction s as [|a s IH]; simpl; [constructor|].
  intros [Ha Hs]. constructor; [|by apply IH].
  intros Hin. rewrite Forall_forall in Ha. specialize (Ha _ Hin). lia.
Qed.

Lemma collect_expired_spec (now : llarp_time_t) (objs : gmap ptr TransitHop)
    (m : list (PathID_t * ptr)) (acc : list ptr) :
  Forall (λ e, is_Some (objs !! e.2)) m → ascending acc →
  ∃ rm, collect_expired now objs m acc = Some rm ∧ ascending rm
    ∧ ∀ q, q ∈ rm ↔
        q ∈ acc ∨ ∃ k t, (k, q) ∈ m ∧ objs !! q = Some t
                         ∧ TransitHop_Expired t now = true.
Proof.
  revert acc. induction m as [|[k p] m IH]; intros acc Hlive Hacc; simpl.
  - exists acc. split_and!; [done | done |]. intros q. split; [by left|].
    intros [Hq|(k & t & Hin & _)]; [done|]. by apply elem_of_nil in Hin.
  - inversion Hlive as [|? ? [t Ht] Hlive']; subst. simpl in Ht.
    rewrite Ht. simpl.
    destruct (IH (if TransitHop_Expired t now then set_insert p acc else acc))
      as (rm & Hrm & Hasc & Hiff); [done | |].
    { destruct (TransitHop_Expired t now); [by apply set_insert_ascending|done]. }
    exists rm. split_and!; [done | done |]. intros q. rewrite Hiff. split.
    + intros [Hq|(k' & t' & Hin & Hq & He)].
      * destruct (TransitHop_Expired t now) eqn:He; [|by left].
        apply set_insert_elem in Hq as [->|Hq]; [|by left].
        right. exists k, t. split_and!; [left | done | done].
      * right. exists k', t'. split_and!; [by right | done | done].
    + intros [Hq|(k' & t' & Hin & Hq & He)].
      * left. destruct (TransitHop_Expired t now); [|done].
        apply set_insert_elem. by right.
      * apply elem_of_cons in Hin as [Heq|Hin].
        -- inversion Heq; subst. rewrite Ht in Hq. inversion Hq; subst.
           rewrite He. left. apply set_insert_elem. by left.
        -- right. by exists k', t'.
Qed.

Lemma erase_collected_spec (rm : list ptr) (objs : gmap ptr TransitHop)
    (m : list (PathID_t * ptr)) :
  NoDup rm → (∀ p, p ∈ rm → is_Some (objs !! p)) →
  ∃ objs' m', erase_collected rm objs m = Some (objs', m')
    ∧ (∀ q, q ∈ rm → objs' !! q = None)
    ∧ (∀ q, q ∉ rm → objs' !! q = objs !! q)
    ∧ (∀ k q, (k, q) ∈ m' ↔
         (k, q) ∈ m ∧ ∀ p t, p ∈ rm → objs !! p = Some t →
                             k ≠ info_txID (info t) ∧ k ≠ info_rxID (info t)).
Proof.
  revert objs m. induction rm as [|p rm IH]; intros objs m Hnd Hlive; simpl.
  - exists objs, m. split_and!; [done | | done |].
    + intros q Hq. by apply elem_of_nil in Hq.
    + intros k q. split; [|tauto]. intros Hin. split; [done|].
      intros p t Hp. by apply elem_of_nil in Hp.
  - inversion Hnd as [|? ? Hnotin Hnd']; subst.
    destruct (Hlive p) as [t Ht]; [left|]. rewrite Ht. simpl.
    destruct (IH (delete p objs)
                 (erase (erase m (info_txID (info t))) (info_rxID (info t))))
      as (objs' & m' & Hrun & Hdead & Hkeep & Hmap); [done | |].
    { intros q Hq. rewrite lookup_delete_ne; [apply Hlive; by right|].
      intros ->. done. }
    exists objs', m'. split_and!; [done | | |].
    + intros q Hq. apply elem_of_cons in Hq as [->|Hq]; [|by apply Hdead].
      rewrite Hkeep by done. apply lookup_delete_eq.
    + intros q Hq. rewrite not_elem_of_cons in Hq. destruct Hq as [Hne Hq].
      rewrite Hkeep by done. by apply lookup_delete_ne.
    + intros k q. rewrite Hmap, !elem_of_erase. split.
      * intros [[[Hin Htx] Hrx] Hrest]. split; [done|].
        intros p' t' Hp' Ht'. apply elem_of_cons in Hp' as [->|Hp'].
        -- rewrite Ht in Ht'. by inversion Ht'; subst.
        -- apply (Hrest p' t' Hp'). rewrite lookup_delete_ne; [done|].
           by intros ->.
      * intros [Hin Hall]. destruct (Hall p t) as [Htx Hrx]; [left | done |].
        split; [done|]. intros p' t' Hp' Ht'.
        apply (Hall p' t'); [by right|].
        rewrite lookup_delete_ne in Ht'; [done|]. by intros ->.
Qed.

(** The sweep returns in every registry whose transit entries are live; it
    releases exactly the collected hops and removes exactly the entries
    stored under a TX or RX key of a collected hop. *)
Lemma ExpirePaths_spec (now : llarp_time_t) (h : heap) (c : PathContext) :
  transit_live h c →
  ∃ h' c', ExpirePaths now h c = Some (h', c')
    ∧ paths h' = paths h ∧ m_OurPaths c' = m_OurPaths c
    ∧ (∀ q, reaped now h c q → transit_hops h' !! q = None)
    ∧ (∀ q, ¬ reaped now h c q → transit_hops h' !! q = transit_hops h !! q)
    ∧ (∀ k q, (k, q) ∈ m_TransitPaths c' ↔
         (k, q) ∈ m_TransitPaths c
         ∧ ∀ p t, reaped now h c p → transit_hops h !! p = Some t →
                  k ≠ info_txID (info t) ∧ k ≠ info_rxID (info t)).
Proof.
  intros Hlive. unfold ExpirePaths.
  destruct (collect_expired_spec now (transit_hops h) (m_TransitPaths c) [])
    as (rm & Hrm & Hasc & Hiff); [done | done |].
  assert (Hrmiff : ∀ q, q ∈ rm ↔ reaped now h c q).
  { intros q. rewrite Hiff. unfold reaped. split; [|by right].
    intros [Hq|Hq]; [by apply elem_of_nil in Hq | done]. }
  destruct (erase_collected_spec rm (transit_hops h) (m_TransitPaths c))
    as (objs' & m' & Hrun & Hdead & Hkeep & Hmap).
  { by apply ascending_NoDup. }
  { intros p Hp. apply Hrmiff in Hp as (k & t & _ & Ht & _). by exists t. }
  rewrite Hrm. simpl. rewrite Hrun. simpl.
  eexists _, _. split; [reflexivity|]. simpl.
  split_and!; [done | done | | |].
  - intros q Hq. apply Hdead. by apply Hrmiff.
  - intros q Hq. apply Hkeep. by rewrite Hrmiff.
  - intros k q. rewrite Hmap. split; intros [Hin Hall]; (split; [done|]);
      intros p t Hp; apply Hall; by apply Hrmiff.
Qed.

Lemma reachable_by_elem (c : PathContext) (k : PathID_t) (p : ptr) :
  reachable_by c k p = true ↔ (k, p) ∈ m_TransitPaths c.
Proof.
  unfold reachable_by, MapHas. rewrite <- elem_of_equal_range.
  rewrite any_accepted_first_accepted.
  induction (equal_range (m_TransitPaths c) k) as [|q l IH]; simpl.
  - rewrite elem_of_nil. split; [discriminate | done].
  - rewrite elem_of_cons. case_bool_decide as Hq; simpl.
    + subst q. split; [by left | done].
    + rewrite IH. split; [by right|]. intros [->|Hin]; done.
Qed.

(** After the sweep no collected hop is stored under its TX or its RX key,
    and it is released. *)
Lemma ExpirePaths_expired_unreachable (now : llarp_time_t) (h : heap)
    (c : PathContext) (p : ptr) (t : TransitHop) :
  transit_live h c → reaped now h c p → transit_hops h !! p = Some t →
  ∃ h' c', ExpirePaths now h c = Some (h', c')
    ∧ equal_range (m_TransitPaths c') (info_txID (info t)) = []
    ∧ equal_range (m_TransitPaths c') (info_rxID (info t)) = []
    ∧ transit_hops h' !! p = None.
Proof.
  intros Hlive Hreap Ht.
  destruct (ExpirePaths_spec now h c Hlive)
    as (h' & c' & Hrun & _ & _ & Hdead & _ & Hmap).
  exists h', c'. split_and!; [done | | | by apply Hdead].
  - apply equal_range_nil. intros v Hin. apply Hmap in Hin as [_ Hall].
    by destruct (Hall p t Hreap Ht).
  - apply equal_range_nil. intros v Hin. apply Hmap in Hin as [_ Hall].
    by destruct (Hall p t Hreap Ht).
Qed.

(** A hop that is not expired stays stored under each of its keys that is
    not also a TX or RX key of a collected hop. *)
Lemma ExpirePaths_keeps_unshared (now : llarp_time_t) (h : heap)
    (c : PathContext) (k : PathID_t) (q : ptr) :
  transit_live h c → (k, q) ∈ m_TransitPaths c →
  (∀ p t, reaped now h c p → transit_hops h !! p = Some t →
          k ≠ info_txID (info t) ∧ k ≠ info_rxID (info t)) →
  ∃ h' c', ExpirePaths now h c = Some (h', c')
    ∧ reachable_by c' k q = true.
Proof.
  intros Hlive Hin Hno.
  destruct (ExpirePaths_spec now h c Hlive)
    as (h' & c' & Hrun & _ & _ & _ & _ & Hmap).
  exists h', c'. split; [done|]. apply reachable_by_elem. by apply Hmap.
Qed.

(** C1: the sweep removes an expired hop with [map.erase(key)], which
    drops every entry of the key. With the expired hop at address 2
    (TX 1, RX 2) and the live hop at address 3 (TX 1, RX 3) registered
    together, the sweep at time 50 leaves the live hop stored under its RX
    key only: it is no longer reachable by its TX id. *)
Theorem ExpirePaths_drops_live_hop_sharing_key :
  TransitHop_Expired sample_hopA 50%Z = true
  ∧ TransitHop_Expired sample_hopB 50%Z = false
  ∧ reachable_by sample_context 1%Z 3%positive = true
  ∧ reachable_by sample_context 3%Z 3%positive = true
  ∧ ∃ h' c',
      ExpirePaths 50%Z sample_heap sample_context = Some (h', c')
      ∧ m_TransitPaths c' = [(3%Z, 3%positive)]
      ∧ transit_hops h' !! 3%positive = Some sample_hopB
      ∧ transit_hops h' !! 2%positive = None
      ∧ reachable_by c' 1%Z 3%positive = false
      ∧ reachable_by c' 3%Z 3%positive = true.
Proof.
  split_and!; [reflexivity | reflexivity | reflexivity | reflexivity |].
  eexists _, _. split; [vm_compute; reflexivity|].
  split_and!; reflexivity.
Qed.

(** [MapDel] with a check on the pointer removes the expired hop alone. *)
Example MapDel_keeps_the_other_hop :
  MapDel (m_TransitPaths sample_context) 1%Z
         (λ q, Some (bool_decide (q = 2%positive)))
  = Some [(2%Z, 2%positive); (1%Z, 3%positive); (3%Z, 3%positive)].
Proof. reflexivity. Qed.

(** ** Duplicate detection *)

Lemma TransitHopInfo_eqb_eq (a b : TransitHopInfo) :
  TransitHopInfo_eqb a b = true ↔ a = b.
Proof.
  destruct a, b. unfold TransitHopInfo_eqb. simpl.
  rewrite !andb_true_iff, !Z.eqb_eq. split.
  - intros [[[[-> ->] ->] ->] ->]. done.
  - intros Heq. inversion Heq. done.
Qed.

Lemma info_check_decides (h : heap) (i : TransitHopInfo) (l : list ptr) :
  (∀ q, q ∈ l → is_Some (transit_hops h !! q)) →
  decides (λ q, t ← transit_hops h !! q; Some (TransitHopInfo_eqb i (info t)))
          (λ q, ∃ t, transit_hops h !! q = Some t ∧ i = info t) l.
Proof.
  intros Hlive q Hq. destruct (Hlive q Hq) as [t Ht]. rewrite Ht. simpl.
  eexists. split; [reflexivity|]. rewrite TransitHopInfo_eqb_eq. split.
  - intros ->. by exists t.
  - intros (t' & Ht' & ->). congruence.
Qed.

Lemma PutTransitHop_live (h : heap) (c : PathContext) (p : ptr) (hop : TransitHop) :
  transit_live h c → transit_hops h !! p = Some hop →
  ∃ c1, PutTransitHop h c p = Some c1
    ∧ m_TransitPaths c1
      = m_TransitPaths c ++ [(info_txID (info hop), p); (info_rxID (info hop), p)]
    ∧ transit_live h c1.
Proof.
  intros Hlive Hp. unfold PutTransitHop. rewrite Hp. simpl.
  eexists. split; [reflexivity|]. simpl. unfold MapPut, emplace.
  rewrite <- app_assoc. split; [done|].
  unfold transit_live. simpl. apply Forall_app. split; [done|].
  repeat constructor; simpl; by exists hop.
Qed.

Lemma HasTransitHop_empty_range (h : heap) (c : PathContext) (i : TransitHopInfo) :
  equal_range (m_TransitPaths c) (info_txID i) = [] →
  HasTransitHop h c i = Some false.
Proof. intros Hnil. unfold HasTransitHop, MapHas. by rewrite Hnil. Qed.

(** C7: in a registry whose transit entries are live, for every hop and
    every [info] equal to the hop's: right after [PutTransitHop(hop)],
    [HasTransitHop(info)] is true; and after a sweep that collects the hop
    (the hop is registered and expired at the time of the sweep), be it
    the very next operation or a later one, [HasTransitHop(info)] is
    false. *)
Theorem HasTransitHop_put_then_reap (h : heap) (c : PathContext) (p : ptr)
    (hop : TransitHop) (i : TransitHopInfo) :
  transit_live h c →
  transit_hops h !! p = Some hop →
  TransitHopInfo_eqb i (info hop) = true →
  ∃ c1, PutTransitHop h c p = Some c1
    ∧ HasTransitHop h c1 i = Some true
    ∧ (∀ now, TransitHop_Expired hop now = true →
         ∃ h2 c2, ExpirePaths now h c1 = Some (h2, c2)
                  ∧ HasTransitHop h2 c2 i = Some false)
    ∧ (∀ now h' c', transit_live h' c' →
         transit_hops h' !! p = Some hop →
         (info_txID (info hop), p) ∈ m_TransitPaths c' →
         TransitHop_Expired hop now = true →
         ∃ h2 c2, ExpirePaths now h' c' = Some (h2, c2)
                  ∧ HasTransitHop h2 c2 i = Some false).
Proof.
  intros Hlive Hp Heq. apply TransitHopInfo_eqb_eq in Heq. subst i.
  destruct (PutTransitHop_live h c p hop Hlive Hp) as (c1 & Hput & Hmap & Hlive1).
  assert (Hlater : ∀ now h' c', transit_live h' c' →
            transit_hops h' !! p = Some hop →
            (info_txID (info hop), p) ∈ m_TransitPaths c' →
            TransitHop_Expired hop now = true →
            ∃ h2 c2, ExpirePaths now h' c' = Some (h2, c2)
                     ∧ HasTransitHop h2 c2 (info hop) = Some false).
  { intros now h' c' Hl' Hp' Hin Hexp.
    destruct (ExpirePaths_expired_unreachable now h' c' p hop Hl')
      as (h2 & c2 & Hrun & Htx & _ & _); [|done|].
    { by exists (info_txID (info hop)), hop. }
    exists h2, c2. split; [done|]. by apply HasTransitHop_empty_range. }
  exists c1. split_and!; [done | | | done].
  - assert (Hl : ∀ q,
      q ∈ equal_range (m_TransitPaths c1) (info_txID (info hop)) →
      is_Some (transit_hops h !! q)).
    { intros q Hq. apply elem_of_equal_range in Hq.
      unfold transit_live in Hlive1. rewrite Forall_forall in Hlive1.
      exact (Hlive1 _ Hq). }
    pose proof (info_check_decides h (info hop) _ Hl) as Hdec.
    destruct (first_such_exists _ _ _ Hdec) as (v & Hv).
    { exists p. split; [|by exists hop].
      apply elem_of_equal_range. rewrite Hmap. apply elem_of_app. right. left. }
    unfold HasTransitHop, MapHas. rewrite any_accepted_first_accepted.
    by rewrite (first_accepted_first_such _ _ _ _ Hdec Hv).
  - intros now Hexp. apply Hlater; [done | done | | done].
    rewrite Hmap. apply elem_of_app. right. left.
Qed.

Lemma HasTransitHop_put_then_reap_witness :
  ∃ c1, PutTransitHop sample_heap (new_PathContext sample_router) 2%positive
          = Some c1
    ∧ HasTransitHop sample_heap c1 (info sample_hopA) = Some true
    ∧ (∀ now, TransitHop_Expired sample_hopA now = true →
         ∃ h2 c2, ExpirePaths now sample_heap c1 = Some (h2, c2)
                  ∧ HasTransitHop h2 c2 (info sample_hopA) = Some false)
    ∧ (∀ now h' c', transit_live h' c' →
         transit_hops h' !! 2%positive = Some sample_hopA →
         (info_txID (info sample_hopA), 2%positive) ∈ m_TransitPaths c' →
         TransitHop_Expired sample_hopA now = true →
         ∃ h2 c2, ExpirePaths now h' c' = Some (h2, c2)
                  ∧ HasTransitHop h2 c2 (info sample_hopA) = Some false).
Proof.
  apply (HasTransitHop_put_then_reap sample_heap (new_PathContext sample_router)
           2%positive sample_hopA (info sample_hopA)).
  - unfold transit_live. simpl. constructor.
  - reflexivity.
  - reflexivity.
Defined.

Example HasTransitHop_sample_after_sweep :
  (λ r, HasTransitHop r.1 r.2 (info sample_hopA))
    <$> ExpirePaths 50%Z sample_heap sample_context
  = Some (Some false).
Proof. reflexivity. Qed.

(** ** Sending a routing message *)

(** C8: when the serialization of the message fails, as it does for every
    message that needs more bytes than the scratch array holds,
    [SendRoutingMessage] returns false, hands nothing to the link layer and
    draws no nonce; when it succeeds, the buffer is rewound to the written
    extent ([sz] becomes the cursor, the cursor goes back to [base]), one
    nonce is drawn from the generator, and the result is that of
    [HandleUpstream] on the rewound buffer with that nonce. *)
Theorem SendRoutingMessage_capacity (p : Path) (msg : IMessage)
    (tmp : list byte_t) (r : llarp_router) (g : randombytes) :
  (∀ n, needs_bytes msg n → (length tmp < n)%nat →
        SendRoutingMessage p msg tmp r g = Some (false, r, g))
  ∧ (∀ buf, BEncode msg (StackBuffer tmp) = (false, buf) →
        SendRoutingMessage p msg tmp r g = Some (false, r, g))
  ∧ (∀ buf, BEncode msg (StackBuffer tmp) = (true, buf) →
        SendRoutingMessage p msg tmp r g
        = (λ res : bool * llarp_router,
             (res.1, res.2, RandomBytes (entropy g) (S (drawn g))))
          <$> HandleUpstream p (Buffer (base buf) (cur buf) 0)
                (entropy g (drawn g)) r).
Proof.
  assert (Hfail : ∀ buf, BEncode msg (StackBuffer tmp) = (false, buf) →
            SendRoutingMessage p msg tmp r g = Some (false, r, g)).
  { intros buf Henc. unfold SendRoutingMessage. by rewrite Henc. }
  split_and!; [|done|].
  - intros n Hneeds Hcap.
    specialize (Hneeds (StackBuffer tmp)).
    destruct (BEncode msg (StackBuffer tmp)) as [ok buf] eqn:Henc.
    simpl in Hneeds. apply (Hfail buf). f_equal. apply Hneeds.
    unfold size_left. simpl. lia.
  - intros buf Henc. unfold SendRoutingMessage. rewrite Henc. simpl.
    by destruct (HandleUpstream _ _ _ _) as [[ok r']|].
Qed.

Lemma raw_message_needs_bytes (bytes : list byte_t) :
  needs_bytes (raw_message bytes) (length bytes).
Proof.
  intros buf Hlt. unfold raw_message. simpl. rewrite decide_False by lia. done.
Qed.

Lemma SendRoutingMessage_capacity_witness :
  SendRoutingMessage sample_path (raw_message [1; 2; 3; 4; 5]%Z) [0; 0; 0]%Z
    sample_router sample_rng
  = Some (false, sample_router, sample_rng).
Proof.
  apply (proj1 (SendRoutingMessage_capacity sample_path
                  (raw_message [1; 2; 3; 4; 5]%Z) [0; 0; 0]%Z
                  sample_router sample_rng) 5%nat).
  - apply (raw_message_needs_bytes [1; 2; 3; 4; 5]%Z).
  - simpl. lia.
Defined.

Example SendRoutingMessage_sample_fits :
  (λ res, (res.1.1, outbound res.1.2, drawn res.2))
    <$> SendRoutingMessage sample_path (raw_message [10; 20; 30]%Z)
          [0; 0; 0; 0]%Z sample_router sample_rng
  = Some (true, [(11, RelayUpstreamMessage [96; 123; 114] 100 1)]%Z, 1%nat).
Proof. reflexivity. Qed.

(** ** Reading a bencoded list into a fixed array *)

Section sink_invariant.
Context {St : Type} (sink : sink_t St) (P : St → Prop).
Hypothesis sink_keeps : ∀ s buf has, P s → P (sink s buf has).1.2.

Lemma list_end_sat s buf : P s → outcome_sat P (list_end sink s buf).
Proof.
  intros Hs. unfold list_end. destruct (peek buf) as [c|]; [|done].
  case_decide; [done|].
  specialize (sink_keeps s (advance buf) false Hs).
  by destruct (sink s (advance buf) false) as [[ok s'] buf'].
Qed.

Lemma list_loop_sat fuel s buf :
  P s → outcome_sat P (list_loop sink fuel s buf).
Proof.
  revert s buf. induction fuel as [|fuel IH]; intros s buf Hs; simpl; [done|].
  case_decide; [by apply list_end_sat|].
  destruct (peek buf) as [c|]; [|done].
  case_decide; [by apply list_end_sat|].
  specialize (sink_keeps s buf true Hs).
  destruct (sink s buf true) as [[ok s'] buf']. simpl in *.
  destruct ok; [by apply IH | done].
Qed.

Lemma bencode_read_list_sat fuel s buf :
  P s → outcome_sat P (bencode_read_list sink fuel s buf).
Proof.
  intros Hs. unfold bencode_read_list. case_decide; [done|].
  destruct (peek buf) as [c|]; [|done].
  case_decide; [done|]. by apply list_loop_sat.
Qed.
End sink_invariant.

Section read_array.
Context {Item : Type} `{BDecodable Item}.

Lemma read_array_sink_inv (k : nat) (s : array_reader Item) buf has :
  reader_inv k s → reader_inv k (read_array_sink s buf has).1.2.
Proof.
  intros (Hlen & Hidx & Htr). unfold read_array_sink.
  destruct has; [|done]. case_decide; [done|].
  destruct (array s !! idx s) as [item|]; [|done].
  destruct (BDecode item buf) as [[ok item'] buf']. simpl.
  split_and!.
  - simpl. by rewrite length_insert.
  - simpl. lia.
  - cbn [decoded_at idx]. by rewrite Htr, seq_S.
Qed.

Lemma list_end_returns (s : array_reader Item) buf :
  list_end read_array_sink s buf ≠ OutOfFuel.
Proof.
  unfold list_end. destruct (peek buf); [|done]. case_decide; [done|].
  by destruct (read_array_sink s (advance buf) false) as [[ok s'] buf'].
Qed.

Lemma list_loop_enough_fuel (k fuel : nat) (s : array_reader Item) buf :
  reader_inv k s → (k - idx s < fuel)%nat →
  list_loop read_array_sink fuel s buf ≠ OutOfFuel.
Proof.
  revert s buf. induction fuel as [|fuel IH]; intros s buf Hinv Hfuel; [lia|].
  simpl. case_decide; [apply list_end_returns|].
  destruct (peek buf) as [c|]; [|done].
  case_decide; [apply list_end_returns|].
  pose proof (read_array_sink_inv k s buf true Hinv) as Hinv'.
  destruct Hinv as (Hlen & Hidx & Htr).
  unfold read_array_sink in *. case_decide; [done|].
  destruct (array s !! idx s) as [item|]; [|done].
  destruct (BDecode item buf) as [[ok item'] buf']. simpl in *.
  destruct ok; [|done]. apply IH; [done|]. simpl. lia.
Qed.

(** The run over [arr] and the run over the longer [arr ++ ext] go in
    step until the index reaches [length arr]; there the short array
    makes the reader return false. *)
Lemma list_loop_overflow (fuel_ext fuel : nat) (arr ext : list Item)
    (i : nat) (tr : list nat) buf :
  (i ≤ length arr)%nat → length arr ∉ tr → (length arr - i < fuel)%nat →
  attempted (length arr)
    (list_loop read_array_sink fuel_ext (ArrayReader (arr ++ ext) i tr) buf) →
  ∃ s buf', list_loop read_array_sink fuel (ArrayReader arr i tr) buf
            = Returned false s buf'.
Proof.
  revert fuel arr i tr buf.
  induction fuel_ext as [|fuel_ext IH]; intros fuel arr i tr buf Hi Htr Hfuel;
    [done|].
  destruct fuel as [|fuel]; [lia|]. simpl.
  assert (Hend : ∀ b, attempted (length arr)
            (list_end read_array_sink (ArrayReader (arr ++ ext) i tr) b) → False).
  { intros b. unfold list_end. destruct (peek b); [|done].
    case_decide; done. }
  case_decide; [by intros ?%Hend|].
  destruct (peek buf) as [c|]; [|done].
  case_decide; [by intros ?%Hend|].
  destruct (decide (length (arr ++ ext) ≤ i)%nat) as [Hbig|Hbig]; [done|].
  destruct (decide (length arr ≤ i)%nat) as [Hsmall|Hsmall]; [by eauto|].
  rewrite lookup_app_l by lia.
  destruct (lookup_lt_is_Some_2 arr i) as [item Hitem]; [lia|].
  rewrite Hitem.
  destruct (BDecode item buf) as [[ok item'] buf'].
  destruct ok; [|by eauto].
  rewrite insert_app_l by lia.
  intros Hatt.
  pose proof (IH fuel (<[i:=item']> arr) (S i) (tr ++ [i]) buf') as IH'.
  rewrite length_insert in IH'. apply IH'; [lia | | lia | done].
  rewrite elem_of_app, list_elem_of_singleton. intros [?|?]; [done|lia].
Qed.

(** C10: with a destination array of [k] elements and more than [k]
    loop iterations allowed, [BEncodeReadArray] always stops (it returns,
    or reads outside the buffer's memory); where it stops it has called
    [BDecode] on the indices [0, 1, .., m-1] in this order for some
    [m ≤ k], so never on an index [≥ k]; and whenever the list holds more
    than [k] elements (read into any longer array [arr ++ ext], the
    reader gets to decode the element of index [k]), it returns false. *)
Theorem BEncodeReadArray_bounded (arr : list Item) (buf : llarp_buffer_t)
    (fuel : nat) :
  (length arr < fuel)%nat →
  BEncodeReadArray arr buf fuel ≠ OutOfFuel
  ∧ outcome_sat
      (λ s, length (array s) = length arr ∧ (idx s ≤ length arr)%nat
            ∧ decoded_at s = seq 0 (idx s)
            ∧ ∀ j, j ∈ decoded_at s → (j < length arr)%nat)
      (BEncodeReadArray arr buf fuel)
  ∧ (∀ ext fuel_ext,
       attempted (length arr) (BEncodeReadArray (arr ++ ext) buf fuel_ext) →
       ∃ s buf', BEncodeReadArray arr buf fuel = Returned false s buf').
Proof.
  intros Hfuel. unfold BEncodeReadArray.
  assert (Hinit : reader_inv (length arr) (ArrayReader arr 0 [])).
  { split_and!; simpl; [done | lia | done]. }
  split_and!.
  - unfold bencode_read_list. case_decide; [done|].
    destruct (peek buf); [|done]. case_decide; [done|].
    apply (list_loop_enough_fuel (length arr)); [done | simpl; lia].
  - pose proof (bencode_read_list_sat read_array_sink
                  (reader_inv (length arr))
                  (read_array_sink_inv (length arr)) fuel _ buf Hinit) as Hsat.
    destruct (bencode_read_list read_array_sink fuel (ArrayReader arr 0 []) buf)
      as [b s buf'|s buf'|]; simpl in *; [| |done].
    + destruct Hsat as (Hlen & Hidx & Htr). split_and!; [done..|].
      intros j Hj. rewrite Htr in Hj. apply list_elem_of_In, in_seq in Hj. lia.
    + destruct Hsat as (Hlen & Hidx & Htr). split_and!; [done..|].
      intros j Hj. rewrite Htr in Hj. apply list_elem_of_In, in_seq in Hj. lia.
  - intros ext fuel_ext. unfold bencode_read_list.
    case_decide; [by intros ?%elem_of_nil|].
    destruct (peek buf); [|by intros ?%elem_of_nil].
    case_decide; [by intros ?%elem_of_nil|].
    apply list_loop_overflow; [lia | apply not_elem_of_nil | lia].
Qed.
End read_array.

Lemma BEncodeReadArray_bounded_witness :
  let buf := StackBuffer [108; 1; 2; 3; 101]%Z in
  BEncodeReadArray (H := byte_item) [0; 0]%Z buf 3 ≠ OutOfFuel
  ∧ outcome_sat
      (λ s, length (array s) = 2%nat ∧ (idx s ≤ 2)%nat
            ∧ decoded_at s = seq 0 (idx s)
            ∧ ∀ j, j ∈ decoded_at s → (j < 2)%nat)
      (BEncodeReadArray (H := byte_item) [0; 0]%Z buf 3)
  ∧ (∀ ext fuel_ext,
       attempted 2 (BEncodeReadArray (H := byte_item) ([0; 0]%Z ++ ext) buf fuel_ext) →
       ∃ s buf', BEncodeReadArray (H := byte_item) [0; 0]%Z buf 3
                 = Returned false s buf').
Proof.
  apply (BEncodeReadArray_bounded (H := byte_item) [0; 0]%Z
           (StackBuffer [108; 1; 2; 3; 101]%Z) 3).
  simpl. lia.
Defined.

Example BEncodeReadArray_too_long :
  BEncodeReadArray (H := byte_item) [0; 0]%Z (StackBuffer [108; 1; 2; 3; 101]%Z) 3
  = Returned false (ArrayReader [1; 2]%Z 2 [0; 1]%nat)
      (Buffer [108; 1; 2; 3; 101]%Z 5 3).
Proof. reflexivity. Qed.

Example BEncodeReadArray_fits :
  BEncodeReadArray (H := byte_item) [0; 0; 0]%Z (StackBuffer [108; 1; 2; 3; 101]%Z) 4
  = Returned true (ArrayReader [1; 2; 3]%Z 3 [0; 1; 2]%nat)
      (Buffer [108; 1; 2; 3; 101]%Z 5 5).
Proof. reflexivity. Qed.

Example BEncodeReadArray_sample_attempted :
  attempted 2 (BEncodeReadArray (H := byte_item) ([0; 0]%Z ++ [0%Z])
                 (StackBuffer [108; 1; 2; 3; 101]%Z) 4).
Proof. simpl. set_solver. Qed.

Example BEncodeReadList_unbounded :
  BEncodeReadList (H := byte_item) 0%Z [] (StackBuffer [108; 1; 2; 3; 101]%Z) 4
  = Returned true [1; 2; 3]%Z (Buffer [108; 1; 2; 3; 101]%Z 5 5).
Proof. reflexivity. Qed.

(** A list cut before its ['e']: after the loop the reader looks at the
    byte under the cursor, which is past the end of the memory. *)
Example BEncodeReadArray_truncated :
  BEncodeReadArray (H := byte_item) [0; 0; 0]%Z (StackBuffer [108; 1; 2]%Z) 4
  = OutOfBounds (ArrayReader [1; 2; 0]%Z 2 [0; 1]%nat) (Buffer [108; 1; 2]%Z 3 3).
Proof. reflexivity. Qed.

(** * Further properties of the registry *)

Lemma first_accepted_app_hit {V} (check : V → option bool) (l1 l2 : list V) w :
  first_accepted check l1 = Some (Some w) →
  first_accepted check (l1 ++ l2) = Some (Some w).
Proof.
  induction l1 as [|a l1 IH]; simpl; [done|].
  destruct (check a) as [[|]|]; simpl; [done | exact IH | done].
Qed.

Lemma first_accepted_app_miss {V} (check : V → option bool) (l1 l2 : list V) :
  first_accepted check l1 = Some None →
  first_accepted check (l1 ++ l2) = first_accepted check l2.
Proof.
  induction l1 as [|a l1 IH]; simpl; [done|].
  destruct (check a) as [[|]|]; simpl; [done | exact IH | done].
Qed.

Lemma first_accepted_app_fault {V} (check : V → option bool) (l1 l2 : list V) :
  first_accepted check l1 = None → first_accepted check (l1 ++ l2) = None.
Proof.
  induction l1 as [|a l1 IH]; simpl; [done|].
  destruct (check a) as [[|]|]; simpl; [done | exact IH | done].
Qed.

Lemma equal_range_MapPut {V} (m : list (PathID_t * V)) (k k' : PathID_t) (v : V) :
  equal_range (MapPut m k v) k'
  = equal_range m k' ++ (if decide (k = k') then [v] else []).
Proof.
  unfold MapPut, emplace. rewrite equal_range_app. f_equal.
  unfold equal_range. rewrite filter_cons. simpl.
  destruct (decide (k = k')); done.
Qed.

(** X9: [MapPut] appends to the range of its key and leaves the other keys
    alone: a lookup under another key is unchanged; a lookup under the same
    key that already found an entry still returns that older entry; a
    lookup that found nothing now depends on the new value alone; a lookup
    that faulted still faults. *)
Theorem MapPut_older_entry_wins {V} (m : list (PathID_t * V))
    (k k' : PathID_t) (v : V) (check : V → option bool) :
  (k' ≠ k → MapGet (MapPut m k v) k' check = MapGet m k' check)
  ∧ (∀ w, MapGet m k check = Some (Some w) →
          MapGet (MapPut m k v) k check = Some (Some w))
  ∧ (MapGet m k check = Some None →
     MapGet (MapPut m k v) k check
     = b ← check v; Some (if (b : bool) then Some v else None))
  ∧ (MapGet m k check = None → MapGet (MapPut m k v) k check = None).
Proof.
  unfold MapGet. rewrite !equal_range_MapPut. split_and!.
  - intros Hne. rewrite decide_False by done. by rewrite app_nil_r.
  - intros w Hw. by apply first_accepted_app_hit.
  - intros Hmiss. rewrite decide_True by done.
    rewrite first_accepted_app_miss by done. simpl.
    destruct (check v) as [[|]|]; done.
  - intros Hfault. by apply first_accepted_app_fault.
Qed.

Lemma MapPut_older_entry_wins_witness :
  MapGet (MapPut [(1%Z, 7%positive); (2%Z, 8%positive)] 1%Z 9%positive) 1%Z
         (λ _, Some true)
  = Some (Some 7%positive).
Proof.
  apply (proj1 (proj2 (MapPut_older_entry_wins
                         [(1%Z, 7%positive); (2%Z, 8%positive)] 1%Z 1%Z
                         9%positive (λ _, Some true)))).
  reflexivity.
Defined.

(** X11: [MapHas] and [MapGet] scan the same range with the same check:
    [MapHas] answers true exactly when [MapGet] returns an entry, and
    faults exactly when [MapGet] does. *)
Theorem MapHas_agrees_with_MapGet {V} (m : list (PathID_t * V))
    (k : PathID_t) (check : V → option bool) :
  MapHas m k check
  = (λ r : option V, bool_decide (is_Some r)) <$> MapGet m k check.
Proof.
  unfold MapHas, MapGet. rewrite any_accepted_first_accepted.
  by destruct (first_accepted check (equal_range m k)).
Qed.

Lemma equal_range_cons {V} (m : list (PathID_t * V)) (k0 k : PathID_t) (v0 : V) :
  equal_range ((k0, v0) :: m) k
  = (if decide (k0 = k) then [v0] else []) ++ equal_range m k.
Proof.
  unfold equal_range. rewrite filter_cons. simpl.
  destruct (decide (k0 = k)); done.
Qed.

Lemma equal_range_put_twice {V} (m : list (PathID_t * V)) (k1 k2 k : PathID_t) (v : V) :
  k = k1 ∨ k = k2 →
  ∃ l2, equal_range (MapPut (MapPut m k1 v) k2 v) k = equal_range m k ++ v :: l2.
Proof.
  intros Hk. rewrite !equal_range_MapPut.
  destruct (decide (k1 = k)) as [H1|H1]; destruct (decide (k2 = k)) as [H2|H2].
  - exists [v]. by rewrite <- app_assoc.
  - exists []. by rewrite app_nil_r.
  - exists []. by rewrite app_nil_r.
  - destruct Hk; congruence.
Qed.

Lemma lookup_after_put {V} (check : V → option bool) (P : V → Prop)
    (l l2 : list V) (v : V) :
  decides check P (l ++ v :: l2) → P v →
  (∃ w, first_accepted check (l ++ v :: l2) = Some (Some w) ∧ P w)
  ∧ (Forall (λ x, ¬ P x) l →
     first_accepted check (l ++ v :: l2) = Some (Some v)).
Proof.
  intros Hdec Hv. split.
  - destruct (first_such_exists _ _ _ Hdec) as (w & Hw).
    { exists v. split; [|done]. apply elem_of_app. right. left. }
    exists w. split; [by apply (first_accepted_first_such _ P)|].
    by apply first_such_elem in Hw as [_ ?].
  - intros Hl. apply (first_accepted_first_such _ P); [done|].
    by exists l, l2.
Qed.

Lemma scan_cases {V} (check : V → option bool) (P : V → Prop) (l : list V) :
  decides check P l →
  (∃ v, first_accepted check l = Some (Some v) ∧ v ∈ l ∧ P v)
  ∨ (first_accepted check l = Some None ∧ Forall (λ x, ¬ P x) l).
Proof.
  intros Hdec. induction l as [|a l IH]; simpl; [by right|].
  apply decides_cons in Hdec as [(b & Hc & Hb) Hdec]. rewrite Hc. simpl.
  destruct b.
  - left. exists a. split_and!; [done | left | by apply Hb].
  - destruct (IH Hdec) as [(v & Hv & Hin & HP)|[Hnone Hall]].
    + left. exists v. split_and!; [done | by right | done].
    + right. split; [done|]. constructor; [|done].
      intros HPa. by apply Hb in HPa.
Qed.

Lemma downstream_check_decides (h : heap) (c : PathContext) (remote : RouterID)
    (id : PathID_t) :
  transit_live h c →
  decides (λ p, hop ← transit_hops h !! p;
                Some (bool_decide (info_downstream (info hop) = remote)))
          (downstream_match h remote) (equal_range (m_TransitPaths c) id).
Proof.
  intros Hlive p Hp. apply elem_of_equal_range in Hp.
  unfold transit_live in Hlive. rewrite Forall_forall in Hlive.
  destruct (Hlive _ Hp) as (hop & Hhop). simpl in Hhop.
  rewrite Hhop. simpl. unfold downstream_match.
  eexists. split; [reflexivity|]. rewrite bool_decide_eq_true. split.
  - intros <-. by exists hop.
  - intros (hop' & Hp' & Hup). rewrite Hhop in Hp'. by inversion Hp'; subst.
Qed.

(** X8: [MapDel] with a check that decides [P] on the range of [k] removes
    exactly the entries of [k] that satisfy [P]: the entries kept stay in
    their order, the ranges of the other keys are untouched, and [MapHas]
    with the same key and check is false afterwards. *)
Theorem MapDel_removes_accepted {V} (m : list (PathID_t * V)) (k : PathID_t)
    (check : V → option bool) (P : V → Prop) :
  decides check P (equal_range m k) →
  ∃ m', MapDel m k check = Some m'
    ∧ sublist m' m
    ∧ (∀ k' v, (k', v) ∈ m' ↔ (k', v) ∈ m ∧ ¬ (k' = k ∧ P v))
    ∧ (∀ k', k' ≠ k → equal_range m' k' = equal_range m k')
    ∧ MapHas m' k check = Some false.
Proof.
  intros Hdec.
  assert (Hmain : ∃ m', MapDel m k check = Some m'
    ∧ sublist m' m
    ∧ (∀ k' v, (k', v) ∈ m' ↔ (k', v) ∈ m ∧ ¬ (k' = k ∧ P v))
    ∧ (∀ k', k' ≠ k → equal_range m' k' = equal_range m k')).
  { induction m as [|[k0 v0] m IH]; simpl.
    - exists []. split_and!; [done | done | | done].
      intros k' v. rewrite elem_of_nil. tauto.
    - rewrite equal_range_cons in Hdec.
      destruct (decide (k0 = k)) as [->|Hne].
      + simpl in Hdec. apply decides_cons in Hdec as [(b & Hc & Hb) Hdec].
        destruct (IH Hdec) as (m' & Hrun & Hsub & Hmem & Hother).
        rewrite Hc, Hrun. simpl. destruct b.
        * exists m'. split_and!; [done | by apply sublist_cons | |].
          -- intros k' v. rewrite Hmem, elem_of_cons. split; [tauto|].
             intros [[Heq|Hin] Hno]; [|tauto]. inversion Heq; subst.
             destruct Hno. split; [done | by apply Hb].
          -- intros k' Hk'. rewrite Hother by done.
             rewrite equal_range_cons. by rewrite decide_False.
        * exists ((k, v0) :: m'). split_and!; [done | by apply sublist_skip | |].
          -- intros k' v. rewrite !elem_of_cons, Hmem. split; [|tauto].
             intros [Heq|[Hin Hno]]; [|tauto]. inversion Heq; subst.
             split; [by left|]. intros [_ HP]. by apply Hb in HP.
          -- intros k' Hk'. rewrite !equal_range_cons.
             rewrite decide_False by done. simpl. by apply Hother.
      + destruct (IH Hdec) as (m' & Hrun & Hsub & Hmem & Hother).
        rewrite Hrun. simpl.
        exists ((k0, v0) :: m'). split_and!; [done | by apply sublist_skip | |].
        * intros k' v. rewrite !elem_of_cons, Hmem. split; [|tauto].
          intros [Heq|[Hin Hno]]; [|tauto]. inversion Heq; subst.
          split; [by left|]. intros [? _]. done.
        * intros k' Hk'. rewrite !equal_range_cons. f_equal. by apply Hother. }
  destruct Hmain as (m' & Hrun & Hsub & Hmem & Hother).
  exists m'. split_and!; [done..|].
  unfold MapHas. rewrite any_accepted_first_accepted.
  rewrite (first_accepted_no_match check P); [done | |].
  - intros x Hx. apply Hdec. apply elem_of_equal_range.
    apply elem_of_equal_range in Hx. by apply Hmem in Hx as [? _].
  - apply Forall_forall. intros x Hx. apply elem_of_equal_range in Hx.
    apply Hmem in Hx as [_ Hno]. intros HP. by apply Hno.
Qed.

Lemma MapDel_removes_accepted_witness :
  ∃ m', MapDel (m_TransitPaths sample_context) 1%Z
          (λ q, Some (bool_decide (q = 2%positive))) = Some m'
    ∧ sublist m' (m_TransitPaths sample_context)
    ∧ (∀ k' v, (k', v) ∈ m' ↔
         (k', v) ∈ m_TransitPaths sample_context
         ∧ ¬ (k' = 1%Z ∧ v = 2%positive))
    ∧ (∀ k', k' ≠ 1%Z →
         equal_range m' k' = equal_range (m_TransitPaths sample_context) k')
    ∧ MapHas m' 1%Z (λ q, Some (bool_decide (q = 2%positive))) = Some false.
Proof.
  apply (MapDel_removes_accepted (m_TransitPaths sample_context) 1%Z
           (λ q, Some (bool_decide (q = 2%positive))) (λ q, q = 2%positive)).
  intros x _. eexists. split; [reflexivity|]. apply bool_decide_eq_true.
Defined.

Lemma GetByUpstream_own_found (h : heap) (c : PathContext) (remote : RouterID)
    (id : PathID_t) (p : ptr) :
  first_accepted (λ p, path ← paths h !! p; up ← Upstream path;
                       Some (bool_decide (up = remote)))
    (equal_range (m_OurPaths c) id) = Some (Some p) →
  GetByUpstream h c remote id = Some (Some (OwnPath p)).
Proof. intros Hf. unfold GetByUpstream, MapGet. by rewrite Hf. Qed.

(** X1: [GetByDownstream] consults the transit map only: it never returns an
    own path, and its result does not depend on the own-path map or on the
    path objects. In a registry whose transit entries are live it returns
    the first transit entry under [id] whose [info.downstream] is the given
    router, and [nullptr] when there is none. *)
Theorem GetByDownstream_transit_only (h : heap) (c : PathContext)
    (remote : RouterID) (id : PathID_t) :
  transit_live h c →
  (∀ p, GetByDownstream h c remote id ≠ Some (Some (OwnPath p)))
  ∧ (∀ own objs,
       GetByDownstream (Heap objs (transit_hops h)) (with_OurPaths own c)
         remote id
       = GetByDownstream h c remote id)
  ∧ (∀ q, first_such (downstream_match h remote)
            (equal_range (m_TransitPaths c) id) q →
          GetByDownstream h c remote id = Some (Some (Transit q)))
  ∧ ((∀ q, (id, q) ∈ m_TransitPaths c → ¬ downstream_match h remote q) →
     GetByDownstream h c remote id = Some None).
Proof.
  intros Hlive.
  pose proof (downstream_check_decides h c remote id Hlive) as Hdec.
  split_and!.
  - intros p. unfold GetByDownstream.
    destruct (MapGet _ _ _) as [[q|]|]; simpl; done.
  - intros own objs. done.
  - intros q Hq. unfold GetByDownstream, MapGet.
    by rewrite (first_accepted_first_such _ _ _ _ Hdec Hq).
  - intros Hnone. unfold GetByDownstream, MapGet.
    rewrite (first_accepted_no_match _ _ _ Hdec); [done|].
    apply Forall_forall. intros q Hq. apply Hnone.
    by apply elem_of_equal_range.
Qed.

Lemma GetByDownstream_transit_only_witness :
  (∀ p, GetByDownstream sample_heap sample_context 21%Z 1%Z
        ≠ Some (Some (OwnPath p)))
  ∧ (∀ own objs,
       GetByDownstream (Heap objs (transit_hops sample_heap))
         (with_OurPaths own sample_context) 21%Z 1%Z
       = GetByDownstream sample_heap sample_context 21%Z 1%Z)
  ∧ (∀ q, first_such (downstream_match sample_heap 21%Z)
            (equal_range (m_TransitPaths sample_context) 1%Z) q →
          GetByDownstream sample_heap sample_context 21%Z 1%Z
          = Some (Some (Transit q)))
  ∧ ((∀ q, (1%Z, q) ∈ m_TransitPaths sample_context →
           ¬ downstream_match sample_heap 21%Z q) →
     GetByDownstream sample_heap sample_context 21%Z 1%Z = Some None).
Proof.
  apply (GetByDownstream_transit_only sample_heap sample_context 21%Z 1%Z).
  unfold transit_live. simpl. repeat constructor; eexists; reflexivity.
Defined.

(** X2: Registering an own path and looking it up: in a registry whose own-path
    entries are live, [AddOwnPath] of a live path with at least one hop
    appends the path under its TX id and under its RX id and touches
    nothing else; afterwards [GetByUpstream] with the path's first-hop
    router and either id returns an own path with that router, and returns
    this very path when no entry registered earlier under the id has that
    router. *)
Theorem AddOwnPath_then_GetByUpstream (h : heap) (c : PathContext) (p : ptr)
    (path : Path) :
  own_live h c → paths h !! p = Some path → hops path ≠ [] →
  ∃ c1 tx rx up,
    AddOwnPath h c p = Some c1
    ∧ TXID path = Some tx ∧ RXID path = Some rx ∧ Upstream path = Some up
    ∧ m_OurPaths c1 = m_OurPaths c ++ [(tx, p); (rx, p)]
    ∧ m_TransitPaths c1 = m_TransitPaths c
    ∧ own_live h c1
    ∧ ∀ id, id = tx ∨ id = rx →
        (∃ q, GetByUpstream h c1 up id = Some (Some (OwnPath q))
              ∧ own_match h up q)
        ∧ ((∀ q, (id, q) ∈ m_OurPaths c → ¬ own_match h up q) →
           GetByUpstream h c1 up id = Some (Some (OwnPath p))).
Proof.
  intros Hlive Hp Hne.
  destruct (hops path) as [|c0 hs] eqn:Hh; [done|].
  unfold AddOwnPath. rewrite Hp. simpl.
  unfold TXID, RXID, Upstream. rewrite !Hh. simpl.
  eexists _, _, _, _. split; [reflexivity|].
  split_and!; [reflexivity | reflexivity | reflexivity | | done | |].
  - simpl. unfold MapPut, emplace. by rewrite <- app_assoc.
  - unfold own_live. simpl. unfold MapPut, emplace.
    rewrite <- app_assoc. apply Forall_app. split; [done|].
    repeat constructor; simpl; exists path; by rewrite Hh.
  - intros id Hid.
    set (c1 := with_OurPaths _ c).
    assert (Hlive1 : own_live h c1).
    { unfold own_live, c1. simpl. unfold MapPut, emplace.
      rewrite <- app_assoc. apply Forall_app. split; [done|].
      repeat constructor; simpl; exists path; by rewrite Hh. }
    pose proof (own_check_decides h c1 (pubkey (router c0)) id Hlive1) as Hdec.
    destruct (equal_range_put_twice (m_OurPaths c) (txID c0) (rxID c0) id p Hid)
      as (l2 & Hrange).
    change (m_OurPaths c1)
      with (MapPut (MapPut (m_OurPaths c) (txID c0) p) (rxID c0) p) in Hdec.
    rewrite Hrange in Hdec.
    assert (HP : own_match h (pubkey (router c0)) p).
    { exists path. split; [done|]. unfold Upstream. by rewrite Hh. }
    destruct (lookup_after_put _ _ _ _ _ Hdec HP) as [(w & Hw & HPw) Hexact].
    split.
    + exists w. split; [|done]. apply GetByUpstream_own_found.
      change (m_OurPaths c1)
        with (MapPut (MapPut (m_OurPaths c) (txID c0) p) (rxID c0) p).
      by rewrite Hrange.
    + intros Hnone. apply GetByUpstream_own_found.
      change (m_OurPaths c1)
        with (MapPut (MapPut (m_OurPaths c) (txID c0) p) (rxID c0) p).
      rewrite Hrange. apply Hexact. apply Forall_forall. intros q Hq.
      apply Hnone. by apply elem_of_equal_range.
Qed.

Lemma AddOwnPath_then_GetByUpstream_witness :
  ∃ c1, AddOwnPath sample_heap (new_PathContext sample_router) 1%positive
          = Some c1
        ∧ GetByUpstream sample_heap c1 11%Z 1%Z
          = Some (Some (OwnPath 1%positive)).
Proof.
  destruct (AddOwnPath_then_GetByUpstream sample_heap
              (new_PathContext sample_router) 1%positive sample_path)
    as (c1 & tx & rx & up & Hadd & Htx & Hrx & Hup & _ & _ & _ & Hget).
  - unfold own_live. simpl. constructor.
  - reflexivity.
  - simpl. discriminate.
  - exists c1. split; [exact Hadd|].
    inversion Htx; inversion Hup; subst.
    apply (Hget 1%Z); [by left|].
    intros q Hq. simpl in Hq. by apply elem_of_nil in Hq.
Defined.

(** X3: Registering a transit hop and looking it up: in a registry whose
    transit entries are live, [PutTransitHop] of a live hop appends the hop
    under its TX id and under its RX id and touches nothing else;
    afterwards [GetByDownstream] with the hop's downstream router and
    either id returns a transit hop with that downstream router, and this
    very hop when no transit entry registered earlier under the id has it;
    [GetByUpstream] with the hop's upstream router does the same provided
    no own path registered under the id has that router as its first
    hop. *)
Theorem PutTransitHop_then_lookup (h : heap) (c : PathContext) (p : ptr)
    (hop : TransitHop) :
  own_live h c → transit_live h c → transit_hops h !! p = Some hop →
  ∃ c1,
    PutTransitHop h c p = Some c1
    ∧ m_TransitPaths c1
      = m_TransitPaths c ++ [(info_txID (info hop), p); (info_rxID (info hop), p)]
    ∧ m_OurPaths c1 = m_OurPaths c
    ∧ ∀ id, id = info_txID (info hop) ∨ id = info_rxID (info hop) →
        (∃ q, GetByDownstream h c1 (info_downstream (info hop)) id
                = Some (Some (Transit q))
              ∧ downstream_match h (info_downstream (info hop)) q)
        ∧ ((∀ q, (id, q) ∈ m_TransitPaths c →
                 ¬ downstream_match h (info_downstream (info hop)) q) →
           GetByDownstream h c1 (info_downstream (info hop)) id
           = Some (Some (Transit p)))
        ∧ ((∀ q, (id, q) ∈ m_OurPaths c →
                 ¬ own_match h (info_upstream (info hop)) q) →
           (∃ q, GetByUpstream h c1 (info_upstream (info hop)) id
                   = Some (Some (Transit q))
                 ∧ transit_match h (info_upstream (info hop)) q)
           ∧ ((∀ q, (id, q) ∈ m_TransitPaths c →
                    ¬ transit_match h (info_upstream (info hop)) q) →
              GetByUpstream h c1 (info_upstream (info hop)) id
              = Some (Some (Transit p)))).
Proof.
  intros Hown Hlive Hp.
  destruct (PutTransitHop_live h c p hop Hlive Hp) as (c1 & Hput & Hmap & Hlive1).
  assert (Hown1 : m_OurPaths c1 = m_OurPaths c).
  { unfold PutTransitHop in Hput. rewrite Hp in Hput. simpl in Hput.
    by inversion Hput. }
  exists c1. split_and!; [done | done | done |].
  intros id Hid.
  assert (Hrange : ∃ l2, equal_range (m_TransitPaths c1) id
                         = equal_range (m_TransitPaths c) id ++ p :: l2).
  { destruct (equal_range_put_twice (m_TransitPaths c) (info_txID (info hop))
                (info_rxID (info hop)) id p Hid) as (l2 & Hr).
    exists l2. rewrite <- Hr. f_equal. rewrite Hmap. unfold MapPut, emplace.
    by rewrite <- app_assoc. }
  destruct Hrange as (l2 & Hrange).
  split_and!.
  - pose proof (downstream_check_decides h c1 (info_downstream (info hop)) id
                  Hlive1) as Hdec.
    rewrite Hrange in Hdec.
    destruct (lookup_after_put _ _ _ _ _ Hdec) as [(w & Hw & HPw) _].
    { by exists hop. }
    exists w. split; [|done]. unfold GetByDownstream, MapGet.
    by rewrite Hrange, Hw.
  - intros Hnone.
    pose proof (downstream_check_decides h c1 (info_downstream (info hop)) id
                  Hlive1) as Hdec.
    rewrite Hrange in Hdec.
    destruct (lookup_after_put _ _ _ _ _ Hdec) as [_ Hexact].
    { by exists hop. }
    unfold GetByDownstream, MapGet. rewrite Hrange, Hexact; [done|].
    apply Forall_forall. intros q Hq. apply Hnone.
    by apply elem_of_equal_range.
  - intros Hnoown.
    assert (Hown' : own_live h c1).
    { unfold own_live. by rewrite Hown1. }
    pose proof (own_check_decides h c1 (info_upstream (info hop)) id Hown')
      as Hdeco.
    assert (Hmiss : MapGet (m_OurPaths c1) id
              (λ p, path ← paths h !! p; up ← Upstream path;
                    Some (bool_decide (up = info_upstream (info hop))))
              = Some None).
    { unfold MapGet. apply (first_accepted_no_match _ _ _ Hdeco).
      apply Forall_forall. intros q Hq. apply Hnoown.
      rewrite <- Hown1. by apply elem_of_equal_range. }
    pose proof (transit_check_decides h c1 (info_upstream (info hop)) id
                  Hlive1) as Hdec.
    rewrite Hrange in Hdec.
    destruct (lookup_after_put _ _ _ _ _ Hdec) as [(w & Hw & HPw) Hexact].
    { by exists hop. }
    split.
    + exists w. split; [|done]. unfold GetByUpstream. rewrite Hmiss. simpl.
      unfold MapGet. by rewrite Hrange, Hw.
    + intros Hnone. unfold GetByUpstream. rewrite Hmiss. simpl.
      unfold MapGet. rewrite Hrange, Hexact; [done|].
      apply Forall_forall. intros q Hq. apply Hnone.
      by apply elem_of_equal_range.
Qed.

Lemma PutTransitHop_then_lookup_witness :
  ∃ c1, PutTransitHop sample_heap (new_PathContext sample_router) 2%positive
          = Some c1
        ∧ GetByDownstream sample_heap c1 21%Z 2%Z
          = Some (Some (Transit 2%positive)).
Proof.
  destruct (PutTransitHop_then_lookup sample_heap
              (new_PathContext sample_router) 2%positive sample_hopA)
    as (c1 & Hput & _ & _ & Hget).
  - unfold own_live. simpl. constructor.
  - unfold transit_live. simpl. constructor.
  - reflexivity.
  - exists c1. split; [exact Hput|].
    apply (proj1 (proj2 (Hget 2%Z (or_intror eq_refl)))).
    intros q Hq. simpl in Hq. by apply elem_of_nil in Hq.
Defined.

(** X10: In a registry whose transit entries are live, [HasTransitHop(info)]
    returns, and it is true exactly when some hop stored under the key
    [info.txID] has a HopInfo equal to [info]; an entry stored under another
    key does not count. In particular it is false when nothing is stored
    under [info.txID]. *)
Theorem HasTransitHop_iff_registered (h : heap) (c : PathContext)
    (i : TransitHopInfo) :
  transit_live h c →
  ∃ b : bool,
    HasTransitHop h c i = Some b
    ∧ (b = true ↔
       ∃ p t, (info_txID i, p) ∈ m_TransitPaths c
              ∧ transit_hops h !! p = Some t ∧ info t = i).
Proof.
  intros Hlive.
  assert (Hl : ∀ q, q ∈ equal_range (m_TransitPaths c) (info_txID i) →
                    is_Some (transit_hops h !! q)).
  { intros q Hq. apply elem_of_equal_range in Hq.
    unfold transit_live in Hlive. rewrite Forall_forall in Hlive.
    exact (Hlive _ Hq). }
  pose proof (info_check_decides h i _ Hl) as Hdec.
  unfold HasTransitHop, MapHas. rewrite any_accepted_first_accepted.
  destruct (scan_cases _ _ _ Hdec) as [(v & Hv & Hin & (t & Ht & Hi))|[Hnone Hall]].
  - rewrite Hv. simpl. exists true. split; [done|]. split; [|done].
    intros _. exists v, t. split_and!; [by apply elem_of_equal_range | done | done].
  - rewrite Hnone. simpl. exists false. split; [done|]. split; [done|].
    intros (p & t & Hin & Ht & Hi). exfalso.
    rewrite Forall_forall in Hall. apply (Hall p).
    + by apply elem_of_equal_range.
    + by exists t.
Qed.

Lemma HasTransitHop_iff_registered_witness :
  ∃ b : bool,
    HasTransitHop sample_heap sample_context (info sample_hopB) = Some b
    ∧ (b = true ↔
       ∃ p t, (info_txID (info sample_hopB), p) ∈ m_TransitPaths sample_context
              ∧ transit_hops sample_heap !! p = Some t
              ∧ info t = info sample_hopB).
Proof.
  apply (HasTransitHop_iff_registered sample_heap sample_context
           (info sample_hopB)).
  unfold transit_live. simpl. repeat constructor; eexists; reflexivity.
Defined.

(** * Further properties of the expiry sweep *)

Lemma transit_wf_live (h : heap) (c : PathContext) :
  transit_wf h c → transit_live h c.
Proof.
  unfold transit_wf, transit_live. intros Hwf.
  eapply Forall_impl; [exact Hwf|].
  intros e (t & Ht & _). by exists t.
Qed.

Lemma collect_expired_none (now : llarp_time_t) (objs : gmap ptr TransitHop)
    (m : list (PathID_t * ptr)) (acc : list ptr) :
  Forall (λ e, ∃ t, objs !! e.2 = Some t ∧ TransitHop_Expired t now = false) m →
  collect_expired now objs m acc = Some acc.
Proof.
  revert acc. induction m as [|[k p] m IH]; intros acc Hall; simpl; [done|].
  inversion Hall as [|? ? (t & Ht & He) Hall']; subst. simpl in Ht.
  rewrite Ht. simpl. rewrite He. by apply IH.
Qed.

Lemma erase_collected_shrinks (rm : list ptr) (objs objs' : gmap ptr TransitHop)
    (m m' : list (PathID_t * ptr)) :
  erase_collected rm objs m = Some (objs', m') →
  sublist m' m ∧ objs' ⊆ objs.
Proof.
  revert objs m. induction rm as [|p rm IH]; intros objs m; simpl.
  - intros Heq. by inversion Heq; subst.
  - destruct (objs !! p) as [t|]; simpl; [|done]. intros Hrun.
    apply IH in Hrun as [Hsub Hobjs]. split.
    + etrans; [exact Hsub|]. unfold erase.
      etrans; apply sublist_filter.
    + etrans; [exact Hobjs|]. apply delete_subseteq.
Qed.

Lemma ExpirePaths_nothing_to_collect (now : llarp_time_t) (h : heap)
    (c : PathContext) :
  Forall (λ e, ∃ t, transit_hops h !! e.2 = Some t
                    ∧ TransitHop_Expired t now = false) (m_TransitPaths c) →
  ExpirePaths now h c = Some (h, c).
Proof.
  intros Hall. unfold ExpirePaths.
  rewrite (collect_expired_none _ _ _ [] Hall). simpl.
  by destruct h, c.
Qed.

(** X4: The registry invariant "every transit entry points to a live hop and
    is stored under that hop's TX or RX id" holds for the empty registry
    and is kept by [PutTransitHop] of a live hop and by [ExpirePaths]: the
    sweep returns, and afterwards no entry points to a released hop, every
    hop still registered is the object it was, and none of them is expired
    at the time of the sweep. *)
Theorem transit_wf_preserved (h : heap) (c : PathContext) :
  transit_wf h c →
  (∀ r, transit_wf h (new_PathContext r))
  ∧ (∀ p hop, transit_hops h !! p = Some hop →
       ∃ c1, PutTransitHop h c p = Some c1 ∧ transit_wf h c1)
  ∧ (∀ now, ∃ h' c',
       ExpirePaths now h c = Some (h', c')
       ∧ transit_wf h' c'
       ∧ ∀ k q, (k, q) ∈ m_TransitPaths c' →
           ∃ t, transit_hops h' !! q = Some t
                ∧ transit_hops h !! q = Some t
                ∧ TransitHop_Expired t now = false).
Proof.
  intros Hwf. split_and!.
  - intros r. unfold transit_wf. simpl. constructor.
  - intros p hop Hp. unfold PutTransitHop. rewrite Hp. simpl.
    eexists. split; [reflexivity|]. unfold transit_wf. simpl.
    unfold MapPut, emplace. rewrite <- app_assoc. apply Forall_app.
    split; [done|]. repeat constructor; simpl; exists hop; auto.
  - intros now.
    destruct (ExpirePaths_spec now h c (transit_wf_live _ _ Hwf))
      as (h' & c' & Hrun & _ & _ & Hdead & Hkeep & Hmap).
    exists h', c'. split; [done|].
    assert (Hleft : ∀ k q, (k, q) ∈ m_TransitPaths c' →
              ∃ t, transit_hops h' !! q = Some t
                   ∧ transit_hops h !! q = Some t
                   ∧ TransitHop_Expired t now = false
                   ∧ (k = info_txID (info t) ∨ k = info_rxID (info t))).
    { intros k q Hin. apply Hmap in Hin as [Hin Hall].
      unfold transit_wf in Hwf. rewrite Forall_forall in Hwf.
      destruct (Hwf _ Hin) as (t & Ht & Hk). simpl in Ht, Hk.
      assert (Hnot : ¬ reaped now h c q).
      { intros Hr. destruct (Hall q t Hr Ht). destruct Hk; done. }
      exists t. split_and!; [by rewrite Hkeep | done | | done].
      destruct (TransitHop_Expired t now) eqn:He; [|done].
      destruct Hnot. by exists k, t. }
    split.
    + unfold transit_wf. apply Forall_forall. intros [k q] Hin.
      destruct (Hleft k q Hin) as (t & Ht & _ & _ & Hk). by exists t.
    + intros k q Hin. destruct (Hleft k q Hin) as (t & Ht & Ht0 & He & _).
      by exists t.
Qed.

Lemma transit_wf_preserved_witness :
  ∃ h' c', ExpirePaths 50%Z sample_heap sample_context = Some (h', c')
           ∧ transit_wf h' c'.
Proof.
  destruct (proj2 (proj2 (transit_wf_preserved sample_heap sample_context
              ltac:(unfold transit_wf; simpl;
                    repeat constructor; eexists; (split; [reflexivity|]);
                    simpl; auto))) 50%Z)
    as (h' & c' & Hrun & Hwf & _).
  by exists h', c'.
Defined.

(** X5: A sweep that finds no registered hop expired changes nothing; and in a
    registry that keeps the invariant of [PutTransitHop], a second sweep at
    the same time changes nothing after the first. *)
Theorem ExpirePaths_settles (now : llarp_time_t) (h : heap) (c : PathContext) :
  (transit_live h c →
   (∀ k q t, (k, q) ∈ m_TransitPaths c → transit_hops h !! q = Some t →
             TransitHop_Expired t now = false) →
   ExpirePaths now h c = Some (h, c))
  ∧ (transit_wf h c →
     ∃ h' c', ExpirePaths now h c = Some (h', c')
              ∧ ExpirePaths now h' c' = Some (h', c')).
Proof.
  split.
  - intros Hlive Hnone. apply ExpirePaths_nothing_to_collect.
    unfold transit_live in Hlive. rewrite Forall_forall in Hlive.
    apply Forall_forall. intros [k q] Hin.
    destruct (Hlive _ Hin) as [t Ht]. exists t. split; [done|].
    by apply (Hnone k q).
  - intros Hwf.
    destruct (ExpirePaths_spec now h c (transit_wf_live _ _ Hwf))
      as (h' & c' & Hrun & _ & _ & Hdead & Hkeep & Hmap).
    exists h', c'. split; [done|]. apply ExpirePaths_nothing_to_collect.
    apply Forall_forall. intros [k q] Hin. simpl.
    apply Hmap in Hin as [Hin Hall].
    unfold transit_wf in Hwf. rewrite Forall_forall in Hwf.
    destruct (Hwf _ Hin) as (t & Ht & Hk). simpl in Ht, Hk.
    assert (Hnot : ¬ reaped now h c q).
    { intros Hr. destruct (Hall q t Hr Ht). destruct Hk; done. }
    exists t. split; [by rewrite Hkeep|].
    destruct (TransitHop_Expired t now) eqn:He; [|done].
    destruct Hnot. by exists k, t.
Qed.

Lemma ExpirePaths_settles_witness :
  ∃ h' c', ExpirePaths 50%Z sample_heap sample_context = Some (h', c')
           ∧ ExpirePaths 50%Z h' c' = Some (h', c').
Proof.
  apply (proj2 (ExpirePaths_settles 50%Z sample_heap sample_context)).
  unfold transit_wf. simpl.
  repeat constructor; eexists; (split; [reflexivity|]); simpl; auto.
Defined.

(** X6: The sweep only removes transit state: in a registry whose transit
    entries are live it returns; the own-path map, the path objects, the
    router and the transit gate are unchanged, whatever the age of the own
    paths; the transit entries left are entries that were there, in their
    order; no transit hop is created or modified. *)
Theorem ExpirePaths_only_removes_transit (now : llarp_time_t) (h : heap)
    (c : PathContext) :
  transit_live h c →
  ∃ h' c',
    ExpirePaths now h c = Some (h', c')
    ∧ paths h' = paths h
    ∧ m_OurPaths c' = m_OurPaths c
    ∧ m_Router c' = m_Router c
    ∧ m_AllowTransit c' = m_AllowTransit c
    ∧ sublist (m_TransitPaths c') (m_TransitPaths c)
    ∧ transit_hops h' ⊆ transit_hops h.
Proof.
  intros Hlive.
  destruct (ExpirePaths_spec now h c Hlive) as (h' & c' & Hrun & _).
  exists h', c'. split; [done|].
  unfold ExpirePaths in Hrun.
  destruct (collect_expired now (transit_hops h) (m_TransitPaths c) [])
    as [rm|]; simpl in Hrun; [|done].
  destruct (erase_collected rm (transit_hops h) (m_TransitPaths c))
    as [[objs m]|] eqn:Her; simpl in Hrun; [|done].
  inversion Hrun; subst. simpl.
  apply erase_collected_shrinks in Her as [Hsub Hobjs]. done.
Qed.

Lemma ExpirePaths_only_removes_transit_witness :
  ∃ h' c',
    ExpirePaths 50%Z sample_heap sample_context = Some (h', c')
    ∧ paths h' = paths sample_heap
    ∧ m_OurPaths c' = m_OurPaths sample_context
    ∧ m_Router c' = m_Router sample_context
    ∧ m_AllowTransit c' = m_AllowTransit sample_context
    ∧ sublist (m_TransitPaths c') (m_TransitPaths sample_context)
    ∧ transit_hops h' ⊆ transit_hops sample_heap.
Proof.
  apply (ExpirePaths_only_removes_transit 50%Z sample_heap sample_context).
  unfold transit_live. simpl. repeat constructor; eexists; reflexivity.
Defined.

(** * Further properties of paths *)

(** X12: The constructor fails exactly when no hop is given. When it returns a
    path, the routers of the hops are the chosen routers in their order,
    the other members of every hop keep their initial values, the
    generator has produced two values per hop, and the path's upstream
    router, TX id and RX id are the first chosen router and the first two
    values drawn. *)
Theorem Path_ctor_copies_hops (h : llarp_path_hops) (blank : PathHopConfig)
    (started : llarp_time_t) (parser : llarp_buffer_t → bool)
    (g : randombytes) :
  (Path_ctor h blank started parser g = None ↔ h = [])
  ∧ ∀ p g', Path_ctor h blank started parser g = Some (p, g') →
      router <$> hops p = hop_router <$> h
      ∧ Forall (λ c, shared c = shared blank ∧ lifetime c = lifetime blank)
               (hops p)
      ∧ buildStarted p = started
      ∧ g' = RandomBytes (entropy g) (drawn g + 2 * numHops h)
      ∧ Upstream p = (λ x, pubkey (hop_router x)) <$> head h
      ∧ TXID p = Some (entropy g (drawn g))
      ∧ RXID p = Some (entropy g (drawn g + 1)).
Proof.
  destruct h as [|x h'] eqn:Hh.
  { split; [done|]. intros p g' Hp. by vm_compute in Hp. }
  rewrite <- Hh.
  destruct (Path_ctor_spec h blank started parser g) as (hs & Hrun & Hlen & Hlk).
  { subst h. unfold numHops. simpl. lia. }
  split.
  - rewrite Hrun. subst h. split; intros Habs; discriminate Habs.
  - intros p g' Hp. rewrite Hrun in Hp. inversion Hp; subst p g'. simpl.
    split_and!; [| | done | done | | |].
    + apply list_eq. intros j. rewrite !list_lookup_fmap, Hlk.
      unfold built_hop, llarp_path_hops in *. by destruct (h !! j).
    + apply Forall_forall. intros c Hc.
      apply list_elem_of_lookup in Hc as [j Hj]. rewrite Hlk in Hj.
      unfold built_hop in Hj. destruct (h !! j); simpl in Hj; [|done].
      by inversion Hj.
    + unfold Upstream. simpl. rewrite Hlk. unfold built_hop.
      subst h. done.
    + unfold TXID. simpl. rewrite Hlk. unfold built_hop. subst h. done.
    + unfold RXID. simpl. rewrite Hlk. unfold built_hop. subst h. simpl.
      do 2 f_equal. lia.
Qed.

Lemma Path_ctor_copies_hops_witness :
  ∃ p g', Path_ctor sample_chosen sample_blank 1000%Z (λ _, true) sample_rng
            = Some (p, g')
          ∧ router <$> hops p = hop_router <$> sample_chosen.
Proof.
  eexists _, _. split; [reflexivity|].
  apply (proj2 (Path_ctor_copies_hops sample_chosen sample_blank 1000%Z
                  (λ _, true) sample_rng) _ _ eq_refl).
Defined.

(** X13: When the values the generator produces during the construction are
    pairwise different, the ids of the path are: the RX ids of the hops are
    pairwise different, the TX id of the path differs from every RX id,
    and no hop has the same TX and RX id. *)
Theorem Path_ctor_distinct_ids (h : llarp_path_hops) (blank : PathHopConfig)
    (started : llarp_time_t) (parser : llarp_buffer_t → bool)
    (g : randombytes) (p : Path) (g' : randombytes) :
  Path_ctor h blank started parser g = Some (p, g') →
  (∀ i j, (i < 2 * numHops h)%nat → (j < 2 * numHops h)%nat →
          entropy g (drawn g + i) = entropy g (drawn g + j) → i = j) →
  NoDup (entropy g (drawn g) :: (rxID <$> hops p))
  ∧ ∀ c, c ∈ hops p → txID c ≠ rxID c.
Proof.
  intros Hp Hinj.
  destruct h as [|x h'] eqn:Hh; [by vm_compute in Hp|]. rewrite <- Hh in *.
  destruct (Path_ctor_spec h blank started parser g) as (hs & Hrun & Hlen & Hlk).
  { subst h. unfold numHops. simpl. lia. }
  rewrite Hrun in Hp. inversion Hp; subst p g'. simpl. clear Hp.
  assert (Hrx : ∀ j r, (rxID <$> hs) !! j = Some r →
            (j < numHops h)%nat ∧ r = entropy g (drawn g + (2 * j + 1))).
  { intros j r Hj. rewrite list_lookup_fmap, Hlk in Hj. unfold built_hop in Hj.
    destruct (h !! j) eqn:Hhj; simpl in Hj; [|done].
    apply lookup_lt_Some in Hhj. inversion Hj. split; [done|].
    f_equal. lia. }
  assert (Hneq : ∀ a b x y, (a < 2 * numHops h)%nat → (b < 2 * numHops h)%nat →
            a ≠ b → x = (drawn g + a)%nat → y = (drawn g + b)%nat →
            entropy g x ≠ entropy g y).
  { intros a b x' y' Ha Hb Hab -> -> Heq. by apply Hinj in Heq. }
  split.
  - constructor.
    + intros Hin. apply list_elem_of_lookup in Hin as [j Hj].
      apply Hrx in Hj as [Hlt Heq]. revert Heq.
      apply (Hneq 0%nat (2 * j + 1)%nat); lia.
    + apply NoDup_alt. intros i j r Hi Hj.
      apply Hrx in Hi as [Hilt Hi]. apply Hrx in Hj as [Hjlt Hj].
      rewrite Hi in Hj. apply Hinj in Hj; lia.
  - intros c Hc. apply list_elem_of_lookup in Hc as [j Hj].
    rewrite Hlk in Hj. unfold built_hop in Hj.
    destruct (h !! j) eqn:Hhj; simpl in Hj; [|done].
    apply lookup_lt_Some in Hhj. inversion Hj; subst c. simpl. clear Hj.
    destruct j as [|j'].
    + apply (Hneq 0%nat 1%nat); unfold numHops in *; lia.
    + apply (Hneq (2 * j' + 1)%nat (2 * j' + 3)%nat); unfold numHops in *; lia.
Qed.

Lemma Path_ctor_distinct_ids_witness :
  ∃ p g', Path_ctor sample_chosen sample_blank 1000%Z (λ _, true) sample_rng
            = Some (p, g')
          ∧ NoDup (entropy sample_rng (drawn sample_rng) :: (rxID <$> hops p))
          ∧ ∀ c, c ∈ hops p → txID c ≠ rxID c.
Proof.
  eexists _, _. split; [reflexivity|].
  apply (Path_ctor_distinct_ids sample_chosen sample_blank 1000%Z (λ _, true)
           sample_rng _ _ eq_refl).
  intros i j _ _. simpl. lia.
Defined.

(** X14: While the clock has not wrapped, expiry of a path is monotone: the
    path is not expired at the time its build started, and once it is
    expired it stays expired at every later time. *)
Theorem Expired_monotone (p : Path) (c : PathHopConfig)
    (now now' : llarp_time_t) :
  hops p !! 0%nat = Some c →
  (0 ≤ lifetime c)%Z →
  (0 ≤ buildStarted p ≤ now)%Z → (now ≤ now' < 2 ^ 64)%Z →
  Expired p (buildStarted p) = Some false
  ∧ (Expired p now = Some true → Expired p now' = Some true).
Proof.
  intros Hc Hl Hbs Hnow. unfold Expired. rewrite Hc. simpl.
  rewrite !u64_id by lia. split.
  - f_equal. apply Z.ltb_ge. lia.
  - intros He. injection He as He'. apply Z.ltb_lt in He'.
    f_equal. apply Z.ltb_lt. lia.
Qed.

Lemma Expired_monotone_witness :
  Expired sample_path (buildStarted sample_path) = Some false
  ∧ (Expired sample_path 4000000%Z = Some true →
     Expired sample_path 5000000%Z = Some true).
Proof.
  apply (Expired_monotone sample_path
           (HopConfig 1%Z 2%Z (RC 11%Z) 7%Z hour_ms) 4000000%Z 5000000%Z).
  - reflexivity.
  - unfold hour_ms. simpl. lia.
  - simpl. lia.
  - lia.
Defined.

Section pass_order.
Context {B K : Type} (pass : B → K → B).
Hypothesis pass_commutes :
  ∀ b k1 k2, pass (pass b k1) k2 = pass (pass b k2) k1.

Lemma foldl_pass_perm (ks ks' : list K) (b : B) :
  ks ≡ₚ ks' → foldl pass b ks = foldl pass b ks'.
Proof.
  intros Hp. revert b.
  induction Hp as [|k ks ks' Hp IH|k1 k2 ks|ks1 ks2 ks3 Hp1 IH1 Hp2 IH2];
    intros b; simpl.
  - done.
  - apply IH.
  - by rewrite pass_commutes.
  - by rewrite IH1.
Qed.
End pass_order.

Lemma cipher_loop_sz c (hs : list PathHopConfig) Y buf :
  sz (foldl (λ b hop, xchacha20 c b (shared hop) Y) buf hs) = sz buf
  ∧ cur (foldl (λ b hop, xchacha20 c b (shared hop) Y) buf hs) = cur buf.
Proof.
  revert buf. induction hs as [|hop hs IH]; intros buf; simpl; [done|].
  destruct (IH (xchacha20 c buf (shared hop) Y)) as [-> ->]. done.
Qed.

(** X15: With the stream cipher of the crypto facade (XOR with a keystream fixed
    by key and nonce), the order of the hops does not matter to the cipher
    loop: two paths whose hop lists are permutations of each other
    transform every buffer alike under the same nonce, and
    [HandleDownstream] hands their parsers the same bytes. *)
Theorem cipher_loop_order_irrelevant (p p' : Path) (buf : llarp_buffer_t)
    (Y : TunnelNonce) (r : llarp_router) :
  hops p ≡ₚ hops p' →
  foldl (λ b hop, xchacha20 (crypto r) b (shared hop) Y) buf (hops p)
  = foldl (λ b hop, xchacha20 (crypto r) b (shared hop) Y) buf (hops p')
  ∧ (m_InboundMessageParser p = m_InboundMessageParser p' →
     HandleDownstream p buf Y r = HandleDownstream p' buf Y r).
Proof.
  intros Hperm.
  assert (Heq : foldl (λ b hop, xchacha20 (crypto r) b (shared hop) Y) buf (hops p)
              = foldl (λ b hop, xchacha20 (crypto r) b (shared hop) Y) buf (hops p')).
  { apply (foldl_pass_perm (λ b hop, xchacha20 (crypto r) b (shared hop) Y));
      [|done].
    intros b k1 k2. apply xchacha20_commutes. }
  split; [done|].
  intros Hparser. unfold HandleDownstream, HandleRoutingMessage.
  by rewrite Heq, Hparser.
Qed.

Lemma cipher_loop_order_irrelevant_witness :
  let p' := MkPath (reverse (hops sample_path)) 1000%Z
                   (m_InboundMessageParser sample_path) in
  foldl (λ b hop, xchacha20 (crypto sample_router) b (shared hop) 5%Z)
    (StackBuffer [10; 20; 30]%Z) (hops sample_path)
  = foldl (λ b hop, xchacha20 (crypto sample_router) b (shared hop) 5%Z)
      (StackBuffer [10; 20; 30]%Z) (hops p')
  ∧ (m_InboundMessageParser sample_path = m_InboundMessageParser p' →
     HandleDownstream sample_path (StackBuffer [10; 20; 30]%Z) 5%Z sample_router
     = HandleDownstream p' (StackBuffer [10; 20; 30]%Z) 5%Z sample_router).
Proof.
  apply (cipher_loop_order_irrelevant sample_path
           (MkPath (reverse (hops sample_path)) 1000%Z
                   (m_InboundMessageParser sample_path))
           (StackBuffer [10; 20; 30]%Z) 5%Z sample_router).
  simpl. symmetry. apply reverse_Permutation.
Defined.

(** X16: Sending a routing message and receiving it: when the message
    serializes into the scratch array and the path has at least one hop,
    [SendRoutingMessage] draws one nonce and hands the link layer exactly
    one relay-upstream message, addressed to the path's upstream router and
    carrying the path's TX id and that nonce; its result is the transport's
    answer; the body has the length of the written extent; and
    [HandleDownstream] applied to the body with the nonce of the message
    gives the parser exactly the serialized bytes. *)
Theorem SendRoutingMessage_delivers (p : Path) (msg : IMessage)
    (tmp : list byte_t) (r : llarp_router) (g : randombytes)
    (buf : llarp_buffer_t) :
  hops p ≠ [] →
  BEncode msg (StackBuffer tmp) = (true, buf) →
  ∃ r' up pathid X,
    let N := entropy g (drawn g) in
    SendRoutingMessage p msg tmp r g
    = Some (link_accepts r (outbound r) up (RelayUpstreamMessage X N pathid),
            r', RandomBytes (entropy g) (S (drawn g)))
    ∧ outbound r' = outbound r ++ [(up, RelayUpstreamMessage X N pathid)]
    ∧ Upstream p = Some up ∧ TXID p = Some pathid
    ∧ length X = (cur buf `min` length (base buf))%nat
    ∧ HandleDownstream p (StackBuffer X) N r'
      = HandleRoutingMessage p (StackBuffer (take (cur buf) (base buf))) r'.
Proof.
  intros Hne Henc.
  destruct (hops p) as [|c0 hs] eqn:Hhops; [done|].
  unfold SendRoutingMessage. rewrite Henc. simpl.
  unfold HandleUpstream, TXID, Upstream. rewrite Hhops. simpl.
  eexists _, _, _, _. split; [reflexivity|]. simpl.
  split_and!; [reflexivity | reflexivity | reflexivity | |].
  - change (foldl (λ b hop, xchacha20 (crypto r) b (shared hop) (entropy g (drawn g)))
              (xchacha20 (crypto r) ?b0 (shared c0) (entropy g (drawn g))) hs)
      with (foldl (λ b hop, xchacha20 (crypto r) b (shared hop) (entropy g (drawn g)))
              b0 (c0 :: hs)).
    pose proof (cipher_loop_Encrypted (crypto r) (c0 :: hs) (entropy g (drawn g))
                  (Buffer (base buf) (cur buf) 0)) as Hwire.
    apply (f_equal sz) in Hwire.
    destruct (cipher_loop_sz (crypto r) (c0 :: hs) (entropy g (drawn g))
                (StackBuffer (Encrypted (Buffer (base buf) (cur buf) 0))))
      as [Hsz _].
    rewrite Hsz in Hwire. simpl in Hwire. unfold Encrypted in Hwire at 2.
    simpl in Hwire. rewrite length_take in Hwire. exact Hwire.
  - unfold HandleDownstream. rewrite Hhops. f_equal.
    change (foldl (λ b hop, xchacha20 (crypto r) b (shared hop) (entropy g (drawn g)))
              (xchacha20 (crypto r) ?b0 (shared c0) (entropy g (drawn g))) hs)
      with (foldl (λ b hop, xchacha20 (crypto r) b (shared hop) (entropy g (drawn g)))
              b0 (c0 :: hs)).
    rewrite cipher_loop_Encrypted.
    apply (cipher_loop_twice (crypto r) (c0 :: hs)).
Qed.

Lemma SendRoutingMessage_delivers_witness :
  ∃ r' X,
    outbound r' = [(11%Z, RelayUpstreamMessage X 100%Z 1%Z)]
    ∧ HandleDownstream sample_path (StackBuffer X) 100%Z r'
      = HandleRoutingMessage sample_path (StackBuffer [10; 20; 30]%Z) r'.
Proof.
  destruct (SendRoutingMessage_delivers sample_path
              (raw_message [10; 20; 30]%Z) [0; 0; 0; 0]%Z sample_router
              sample_rng (Buffer [10; 20; 30; 0]%Z 4 3))
    as (r' & up & pathid & X & _ & Hout & Hup & Htx & _ & Hdown).
  - simpl. discriminate.
  - reflexivity.
  - inversion Hup; inversion Htx; subst. by exists r', X.
Defined.

(** * Further properties of the bencode readers and writers *)

Section read_array_more.
Context {Item : Type} `{BDecodable Item}.

Lemma list_loop_true_after_e (fuel : nat) (s s' : array_reader Item)
    (buf buf' : llarp_buffer_t) :
  list_loop read_array_sink fuel s buf = Returned true s' buf' →
  ∃ b, peek b = Some char_e ∧ buf' = advance b.
Proof.
  revert s buf. induction fuel as [|fuel IH]; intros s buf; simpl; [done|].
  assert (Hend : ∀ s0 b0, list_end read_array_sink s0 b0 = Returned true s' buf' →
            ∃ b, peek b = Some char_e ∧ buf' = advance b).
  { intros s0 b0. unfold list_end. destruct (peek b0) as [c|] eqn:Hpk; [|done].
    destruct (decide (c ≠ char_e)) as [|Hc]; [done|].
    simpl. intros Heq. inversion Heq; subst. exists b0. split; [|done].
    rewrite Hpk. f_equal. by destruct (decide (c = char_e)). }
  case_decide; [apply Hend|].
  destruct (peek buf) as [c|]; [|done].
  case_decide; [apply Hend|].
  destruct (decide (length (array s) ≤ idx s)%nat); [done|].
  destruct (array s !! idx s) as [item|]; [|done].
  destruct (BDecode item buf) as [[ok item'] b1].
  destruct ok; [apply IH | done].
Qed.

(** X17: Framing of [BEncodeReadArray]: a buffer with fewer than two bytes left,
    or whose first byte is not ['l'], is rejected with the array, the index
    and the cursor untouched; the empty list ["le"] is accepted with the
    array untouched and the cursor two bytes further; and whenever the
    reader returns true, the input started with ['l'] and had two bytes
    left, and the cursor stands right after an ['e']. *)
Theorem BEncodeReadArray_framing (arr : list Item) (buf : llarp_buffer_t)
    (fuel : nat) :
  ((size_left buf < 2)%nat ∨ (∃ c, peek buf = Some c ∧ c ≠ char_l) →
   BEncodeReadArray arr buf fuel = Returned false (ArrayReader arr 0 []) buf)
  ∧ ((2 ≤ size_left buf)%nat → peek buf = Some char_l →
     peek (advance buf) = Some char_e → (1 ≤ fuel)%nat →
     BEncodeReadArray arr buf fuel
     = Returned true (ArrayReader arr 0 []) (advance (advance buf)))
  ∧ (∀ s buf', BEncodeReadArray arr buf fuel = Returned true s buf' →
       peek buf = Some char_l ∧ (2 ≤ size_left buf)%nat
       ∧ (1 ≤ cur buf')%nat
       ∧ base buf' !! (cur buf' - 1)%nat = Some char_e).
Proof.
  unfold BEncodeReadArray, bencode_read_list. split_and!.
  - intros [Hsz|(c & Hc & Hne)].
    + by rewrite decide_True.
    + case_decide; [done|]. rewrite Hc. by rewrite decide_True.
  - intros Hsz Hl He Hfuel. rewrite decide_False by lia. rewrite Hl.
    rewrite decide_False by (intros Hn; by apply Hn).
    destruct fuel as [|fuel]; [lia|]. simpl.
    rewrite decide_False.
    2:{ unfold size_left in *. simpl. lia. }
    rewrite He. rewrite decide_True by done.
    unfold list_end. rewrite He. rewrite decide_False; [done|].
    intros Hn. by apply Hn.
  - intros s buf'. case_decide as Hsz; [done|].
    destruct (peek buf) as [c|] eqn:Hpk; [|done].
    destruct (decide (c ≠ char_l)) as [|Hc]; [done|].
    intros Hrun. apply list_loop_true_after_e in Hrun as (b & Hb & ->).
    assert (c = char_l) as -> by (by destruct (decide (c = char_l))).
    split_and!; [done | lia | simpl; lia |].
    simpl. replace (cur b - 0)%nat with (cur b) by lia. exact Hb.
Qed.

(** X18: [BEncodeReadArray] writes only the elements it decodes: wherever it
    stops, the array has its length and the elements from index [idx] on
    are the ones it held on entry. *)
Theorem BEncodeReadArray_untouched_tail (arr : list Item)
    (buf : llarp_buffer_t) (fuel : nat) :
  outcome_sat
    (λ s, length (array s) = length arr
          ∧ drop (idx s) (array s) = drop (idx s) arr)
    (BEncodeReadArray arr buf fuel).
Proof.
  unfold BEncodeReadArray. apply bencode_read_list_sat; [|done].
  intros s b has [Hlen Hdrop]. unfold read_array_sink.
  destruct has; [|done]. case_decide; [done|].
  destruct (array s !! idx s) as [item|]; [|done].
  destruct (BDecode item b) as [[ok item'] b']. simpl. split.
  - by rewrite length_insert.
  - rewrite drop_insert_lt by lia.
    rewrite <- (take_drop 1 (drop (idx s) (array s))) in Hdrop.
    rewrite <- (take_drop 1 (drop (idx s) arr)) in Hdrop.
    rewrite !drop_drop in Hdrop.
    apply app_inj_1 in Hdrop as [_ Hdrop].
    + by replace (S (idx s)) with (idx s + 1)%nat by lia.
    + rewrite !length_take, !length_drop. lia.
Qed.

(** The list reader and the array reader go in step when [BDecode] does
    not look at the element it overwrites. *)
Lemma list_loop_list_array (fresh : Item) (fuel : nat) :
  (∀ x y b, BDecode x b = BDecode y b) →
  ∀ (res0 got : list Item) (buf : llarp_buffer_t) res buf',
    list_loop (read_list_sink fresh) fuel (res0 ++ got) buf
      = Returned true res buf' →
    ∃ more, res = res0 ++ got ++ more
      ∧ ∀ rest, (length more ≤ length rest)%nat →
          list_loop read_array_sink fuel
            (ArrayReader (got ++ rest) (length got) (seq 0 (length got))) buf
          = Returned true
              (ArrayReader (got ++ more ++ drop (length more) rest)
                 (length (got ++ more)) (seq 0 (length (got ++ more))))
              buf'.
Proof.
  intros Hind. induction fuel as [|fuel IH]; intros res0 got buf res buf';
    simpl; [done|].
  assert (Hend : list_end (read_list_sink fresh) (res0 ++ got) buf
                   = Returned true res buf' →
    ∃ more, res = res0 ++ got ++ more
      ∧ ∀ rest, (length more ≤ length rest)%nat →
          list_end read_array_sink
            (ArrayReader (got ++ rest) (length got) (seq 0 (length got))) buf
          = Returned true
              (ArrayReader (got ++ more ++ drop (length more) rest)
                 (length (got ++ more)) (seq 0 (length (got ++ more))))
              buf').
  { unfold list_end. destruct (peek buf) as [c|]; [|done].
    case_decide; [done|]. simpl. intros Heq. inversion Heq; subst.
    exists []. split; [by rewrite app_nil_r|]. intros rest _. simpl.
    by rewrite app_nil_r. }
  case_decide; [exact Hend|].
  destruct (peek buf) as [c|]; [|done].
  case_decide; [exact Hend|].
  destruct (BDecode fresh buf) as [[ok item'] b1] eqn:Hdec.
  destruct ok; [|done].
  rewrite <- (app_assoc res0 got [item']). intros Hrun.
  destruct (IH res0 (got ++ [item']) b1 res buf' Hrun) as (more' & Hres & Harr).
  exists (item' :: more'). split.
  { rewrite Hres. by rewrite <- !app_assoc. }
  intros rest Hlen. destruct rest as [|x rest']; [simpl in Hlen; lia|].
  simpl in Hlen.
  rewrite decide_False by (rewrite length_app; simpl; lia).
  rewrite lookup_app_r by lia. replace (length got - length got)%nat with 0%nat by lia.
  simpl. rewrite (Hind x fresh buf), Hdec.
  rewrite insert_app_r_alt by lia.
  replace (length got - length got)%nat with 0%nat by lia. simpl.
  specialize (Harr rest' ltac:(lia)).
  rewrite length_app in Harr. simpl in Harr.
  rewrite seq_app in Harr. simpl in Harr.
  replace (length got + 1)%nat with (S (length got)) in Harr by lia.
  rewrite <- !app_assoc in Harr. simpl in Harr.
  exact Harr.
Qed.

(** X19: [BEncodeReadList] and [BEncodeReadArray] read the same elements: when
    [BDecode] does not depend on the element it overwrites and the list
    reader succeeds, its result is the list it was given followed by the
    elements read; if those are not more than the array has room for, the
    array reader succeeds on the same input, stops at the same cursor,
    holds the same elements in its first slots and leaves the other slots
    as they were. *)
Theorem BEncodeReadList_agrees_with_array (fresh : Item) (result arr : list Item)
    (buf : llarp_buffer_t) (fuel : nat) (res : list Item)
    (buf' : llarp_buffer_t) :
  (∀ x y b, BDecode x b = BDecode y b) →
  BEncodeReadList fresh result buf fuel = Returned true res buf' →
  ∃ more, res = result ++ more
    ∧ ((length more ≤ length arr)%nat →
       BEncodeReadArray arr buf fuel
       = Returned true
           (ArrayReader (more ++ drop (length more) arr) (length more)
                        (seq 0 (length more)))
           buf').
Proof.
  intros Hind. unfold BEncodeReadList, BEncodeReadArray, bencode_read_list.
  case_decide; [done|]. destruct (peek buf) as [c|]; [|done].
  case_decide; [done|]. intros Hrun.
  rewrite <- (app_nil_r result) in Hrun.
  destruct (list_loop_list_array fresh fuel Hind result [] _ _ _ Hrun)
    as (more & Hres & Harr).
  exists more. split; [by rewrite Hres|]. intros Hlen.
  exact (Harr arr Hlen).
Qed.
End read_array_more.

Lemma BEncodeReadArray_framing_witness :
  BEncodeReadArray (H := byte_item) [7; 8]%Z (StackBuffer [108; 101]%Z) 1
  = Returned true (ArrayReader [7; 8]%Z 0 [])
      (advance (advance (StackBuffer [108; 101]%Z))).
Proof.
  apply (proj1 (proj2 (BEncodeReadArray_framing (H := byte_item) [7; 8]%Z
                         (StackBuffer [108; 101]%Z) 1))).
  - unfold size_left. simpl. lia.
  - reflexivity.
  - reflexivity.
  - lia.
Defined.

Example BEncodeReadArray_short_list :
  BEncodeReadArray (H := byte_item) [7; 8; 9]%Z (StackBuffer [108; 1; 101]%Z) 4
  = Returned true (ArrayReader [1; 8; 9]%Z 1 [0%nat])
      (Buffer [108; 1; 101]%Z 3 3).
Proof. reflexivity. Qed.

Lemma BEncodeReadList_agrees_with_array_witness :
  ∃ more, [5; 1; 2]%Z = [5%Z] ++ more
    ∧ ((length more ≤ 3)%nat →
       BEncodeReadArray (H := byte_item) [7; 8; 9]%Z
         (StackBuffer [108; 1; 2; 101]%Z) 4
       = Returned true
           (ArrayReader (more ++ drop (length more) [7; 8; 9]%Z) (length more)
                        (seq 0 (length more)))
           (Buffer [108; 1; 2; 101]%Z 4 4)).
Proof.
  apply (BEncodeReadList_agrees_with_array (H := byte_item) 0%Z [5%Z]
           [7; 8; 9]%Z (StackBuffer [108; 1; 2; 101]%Z) 4).
  - intros x y b. reflexivity.
  - reflexivity.
Defined.

Section message_decode.
Context {Msg : Type} `{IBEncodeMessage Msg}.

Lemma dict_loop_all_rejected (rs : read_string_t) (fuel : nat) (m m' : Msg)
    (buf buf' : llarp_buffer_t) :
  (∀ m0 k v, (DecodeKey m0 k v).1.1 = false) →
  dict_loop rs message_sink fuel m buf = Returned true m' buf' →
  peek buf = Some char_e ∧ m' = m ∧ buf' = advance buf.
Proof.
  intros Hrej. destruct fuel as [|fuel]; simpl; [done|].
  assert (Hend : dict_end message_sink m buf = Returned true m' buf' →
            peek buf = Some char_e ∧ m' = m ∧ buf' = advance buf).
  { unfold dict_end. destruct (peek buf) as [c|]; [|done].
    destruct (decide (c ≠ char_e)) as [|Hc]; [done|]. simpl.
    intros Heq. inversion Heq; subst. split_and!; [|done|done].
    f_equal. by destruct (decide (c = char_e)). }
  case_decide; [exact Hend|].
  destruct (peek buf) as [c|] eqn:Hpk; [|done].
  case_decide; [exact Hend|].
  destruct (rs buf) as [[found strbuf] b1]. destruct found; [|done].
  unfold message_sink, HandleKey.
  specialize (Hrej m strbuf b1).
  destruct (DecodeKey m strbuf b1) as [[ok m1] b2]. simpl in Hrej. subst ok.
  done.
Qed.

(** X20: [IBEncodeMessage::BDecode]: the empty dictionary ["de"] is accepted
    without a call to [DecodeKey], the message untouched and the cursor
    two bytes further; a first key that [DecodeKey] rejects makes [BDecode]
    return false at once, with the message and the buffer as [DecodeKey]
    left them; and a message type whose [DecodeKey] rejects every key
    accepts the empty dictionary only. *)
Theorem IBEncodeMessage_BDecode_keys (rs : read_string_t) (m : Msg)
    (buf : llarp_buffer_t) (fuel : nat) :
  ((2 ≤ size_left buf)%nat → peek buf = Some char_d →
   peek (advance buf) = Some char_e → (1 ≤ fuel)%nat →
   IBEncodeMessage_BDecode rs m buf fuel
   = Returned true m (advance (advance buf)))
  ∧ (∀ c key b1 m1 b2,
       (2 ≤ size_left buf)%nat → peek buf = Some char_d →
       peek (advance buf) = Some c → c ≠ char_e → (1 ≤ fuel)%nat →
       rs (advance buf) = (true, key, b1) →
       DecodeKey m key b1 = (false, m1, b2) →
       IBEncodeMessage_BDecode rs m buf fuel = Returned false m1 b2)
  ∧ ((∀ m0 k v, (DecodeKey m0 k v).1.1 = false) →
     ∀ m' buf', IBEncodeMessage_BDecode rs m buf fuel = Returned true m' buf' →
       peek buf = Some char_d ∧ peek (advance buf) = Some char_e
       ∧ m' = m ∧ buf' = advance (advance buf)).
Proof.
  unfold IBEncodeMessage_BDecode, bencode_read_dict. split_and!.
  - intros Hsz Hd He Hfuel. rewrite decide_False by lia. rewrite Hd.
    rewrite decide_False by (intros Hn; by apply Hn).
    destruct fuel as [|fuel]; [lia|]. simpl.
    rewrite decide_False.
    2:{ unfold size_left in *. simpl. lia. }
    rewrite He. rewrite decide_True by done.
    unfold dict_end. rewrite He. rewrite decide_False; [done|].
    intros Hn. by apply Hn.
  - intros c key b1 m1 b2 Hsz Hd Hc Hne Hfuel Hrs Hdk.
    rewrite decide_False by lia. rewrite Hd.
    rewrite decide_False by (intros Hn; by apply Hn).
    destruct fuel as [|fuel]; [lia|]. simpl.
    rewrite decide_False.
    2:{ unfold size_left in *. simpl. lia. }
    rewrite Hc. rewrite decide_False by done. rewrite Hrs.
    unfold message_sink, HandleKey. by rewrite Hdk.
  - intros Hrej m' buf'. case_decide; [done|].
    destruct (peek buf) as [c|] eqn:Hpk; [|done].
    destruct (decide (c ≠ char_d)) as [|Hc]; [done|].
    intros Hrun. apply dict_loop_all_rejected in Hrun as (He & -> & ->); [|done].
    split_and!; [|done..]. f_equal. by destruct (decide (c = char_d)).
Qed.
End message_decode.

Lemma IBEncodeMessage_BDecode_keys_witness :
  IBEncodeMessage_BDecode (H := λ m _ v, (false, m, v))
    (λ b, (true, b, advance b)) tt (StackBuffer [100; 101]%Z) 1
  = Returned true tt (advance (advance (StackBuffer [100; 101]%Z))).
Proof.
  apply (proj1 (IBEncodeMessage_BDecode_keys (H := λ m _ v, (false, m, v))
                  (λ b, (true, b, advance b)) tt (StackBuffer [100; 101]%Z) 1)).
  - unfold size_left. simpl. lia.
  - reflexivity.
  - reflexivity.
  - lia.
Defined.

Section writers.
Context {Item : Type} `{BEncodable Item}.

Lemma write_array_from_items (array : list Item) (todo idx : nat)
    (buf : llarp_buffer_t) :
  todo = (length array - idx)%nat →
  write_array_from todo idx array buf = write_items (drop idx array) buf.
Proof.
  revert idx buf. induction todo as [|todo IH]; intros idx buf Htodo; simpl.
  - rewrite drop_ge by lia. done.
  - destruct (lookup_lt_is_Some_2 array idx) as [x Hx]; [lia|].
    rewrite Hx. rewrite (drop_S _ _ _ Hx). simpl.
    destruct (Item_BEncode x buf) as [ok b1]. destruct ok; [|done].
    apply IH. lia.
Qed.

Lemma write_items_app (l1 l2 : list Item) (buf b1 : llarp_buffer_t) :
  write_items l1 buf = (true, b1) →
  write_items (l1 ++ l2) buf = write_items l2 b1.
Proof.
  revert buf. induction l1 as [|x l1 IH]; intros buf; simpl.
  - intros Heq. by inversion Heq.
  - destruct (Item_BEncode x buf) as [ok b]. destruct ok; [apply IH | done].
Qed.

(** X21: The three writers of a list under a dictionary key agree:
    [BEncodeWriteDictArray] (index loop), [BEncodeWriteDictList] (key, then
    [BEncodeWriteList]) and [BEncodeWriteDictBEncodeList] give the same
    result and leave the same buffer for the same key and items, whatever
    the underlying writers do. *)
Theorem dict_list_writers_agree (w : bencode_writers) (k : byte_t)
    (items : list Item) (buf : llarp_buffer_t) :
  BEncodeWriteDictArray w k items buf = BEncodeWriteDictList w k items buf
  ∧ BEncodeWriteDictBEncodeList w k items buf
    = BEncodeWriteDictList w k items buf.
Proof.
  unfold BEncodeWriteDictArray, BEncodeWriteDictBEncodeList,
    BEncodeWriteDictList, BEncodeWriteList, and_then.
  destruct (bencode_write_bytestring w buf [k]) as [ok b0]. simpl.
  destruct ok; simpl; [|done].
  destruct (bencode_start_list w b0) as [ok b1]. destruct ok; simpl; [|done].
  rewrite write_array_from_items by lia. done.
Qed.

(** X22: [BEncodeWriteList] stops at the first item whose [BEncode] fails: the
    result is false, the buffer is as that item left it, and neither the
    items after it nor the list terminator are written; a failed
    [bencode_start_list] stops it before any item. *)
Theorem BEncodeWriteList_stops_at_failure (w : bencode_writers)
    (l1 l2 : list Item) (x : Item) (buf b0 b1 b2 : llarp_buffer_t) :
  (bencode_start_list w buf = (false, b0) →
   BEncodeWriteList w (l1 ++ x :: l2) buf = (false, b0))
  ∧ (bencode_start_list w buf = (true, b0) →
     write_items l1 b0 = (true, b1) →
     Item_BEncode x b1 = (false, b2) →
     BEncodeWriteList w (l1 ++ x :: l2) buf = (false, b2)).
Proof.
  unfold BEncodeWriteList. split.
  - intros Hs. by rewrite Hs.
  - intros Hs Hl1 Hx. rewrite Hs. simpl.
    rewrite (write_items_app _ _ _ _ Hl1). simpl. by rewrite Hx.
Qed.
End writers.

Lemma BEncodeWriteList_stops_at_failure_witness :
  BEncodeWriteList (H := byte_item_encode) sample_writers
    ([1%Z] ++ 2%Z :: [3%Z]) (StackBuffer [0; 0]%Z)
  = (false, Buffer [108; 1]%Z 2 2).
Proof.
  apply (proj2 (BEncodeWriteList_stops_at_failure (H := byte_item_encode)
                  sample_writers [1%Z] [3%Z] 2%Z (StackBuffer [0; 0]%Z)
                  (Buffer [108; 0]%Z 2 1) (Buffer [108; 1]%Z 2 2)
                  (Buffer [108; 1]%Z 2 2))).
  - reflexivity.
  - reflexivity.
  - reflexivity.
Defined.

Example BEncodeWriteList_then_ReadArray :
  let written := (BEncodeWriteList (H := byte_item_encode) sample_writers
                    [1; 2; 3]%Z (StackBuffer [0; 0; 0; 0; 0]%Z)).2 in
  base written = [108; 1; 2; 3; 101]%Z
  ∧ BEncodeReadArray (H := byte_item) [0; 0; 0]%Z
      (Buffer (base written) (cur written) 0) 4
    = Returned true (ArrayReader [1; 2; 3]%Z 3 [0; 1; 2]%nat)
        (Buffer [108; 1; 2; 3; 101]%Z 5 5).
Proof. split; reflexivity. Qed.

(** X7: What the sweep forgets: after a sweep that collects a hop,
    [HasTransitHop] is false for every HopInfo whose TX id is the TX id or
    the RX id of the collected hop, be it the info of a hop that is not
    expired; the hops that were not collected stay allocated and
    unchanged. *)
Theorem ExpirePaths_forgets_key_sharers (now : llarp_time_t) (h : heap)
    (c : PathContext) (p : ptr) (t : TransitHop) (i : TransitHopInfo) :
  transit_live h c → reaped now h c p → transit_hops h !! p = Some t →
  info_txID i = info_txID (info t) ∨ info_txID i = info_rxID (info t) →
  ∃ h' c',
    ExpirePaths now h c = Some (h', c')
    ∧ HasTransitHop h' c' i = Some false
    ∧ ∀ q, ¬ reaped now h c q → transit_hops h' !! q = transit_hops h !! q.
Proof.
  intros Hlive Hreap Ht Hkey.
  destruct (ExpirePaths_spec now h c Hlive)
    as (h' & c' & Hrun & _ & _ & _ & Hkeep & Hmap).
  exists h', c'. split_and!; [done | | done].
  apply HasTransitHop_empty_range. apply equal_range_nil.
  intros v Hin. apply Hmap in Hin as [_ Hall].
  destruct (Hall p t Hreap Ht) as [Htx Hrx]. destruct Hkey; congruence.
Qed.

Lemma ExpirePaths_forgets_key_sharers_witness :
  ∃ h' c',
    ExpirePaths 50%Z sample_heap sample_context = Some (h', c')
    ∧ HasTransitHop h' c' (info sample_hopB) = Some false
    ∧ ∀ q, ¬ reaped 50%Z sample_heap sample_context q →
           transit_hops h' !! q = transit_hops sample_heap !! q.
Proof.
  apply (ExpirePaths_forgets_key_sharers 50%Z sample_heap sample_context
           2%positive sample_hopA (info sample_hopB)).
  - unfold transit_live. simpl. repeat constructor; eexists; reflexivity.
  - exists 1%Z, sample_hopA. split_and!; [left | reflexivity | reflexivity].
  - reflexivity.
  - left. reflexivity.
Defined.
